(** * Qwirkle: the turn-staging core of [Game.cpp], [Board.cpp] and [Tile.h]

    A shallow embedding of the game state that [Game::run] manipulates
    (tile bag, six-slot hand, staged placements, board) and of the four
    state-changing branches of its click handler, followed by the
    properties of that state machine.

    Conventions.
    - [std::vector<T>] is a [list T] in index order: [push_back] appends
      at the end, [back]/[pop_back] read and drop the last element.
    - [std::map<Coord, Tile>] is a [gmap (Z * Z) Tile]; range-[for]
      loops over it visit the entries in increasing key order, which
      [map_iter] reproduces by sorting with the lexicographic order of
      [std::pair<int, int>].
    - [int] coordinates are [Z]: the modelled code only compares them.
    - [std::shuffle] with the member [rng] is a function on lists,
      passed as a parameter; the theorems that depend on it assume that
      it returns a permutation of its argument.
    - Rendering, the camera and hit-testing are left out; the
      operations below are the bodies that run once a click has been
      resolved to a button, a hand slot or a board coordinate. Texture
      loading is modelled over an abstract [loadFromFile]. *)

From Stdlib Require Import Ascii.
From stdpp Require Import base decidable numbers option list sorting gmap fin_maps strings.

Local Open Scope Z_scope.

(** ** Tile.h *)

Inductive Shape := Circle | Square | Diamond | Fourpoint | Clover | Astericks.
Inductive Color := Red | Orange | Yellow | Green | Blue | Purple.

Record Tile := mkTile { shape : Shape; color : Color }.

#[global] Instance Shape_eq_dec : EqDecision Shape.
Proof. solve_decision. Defined.
#[global] Instance Color_eq_dec : EqDecision Color.
Proof. solve_decision. Defined.
#[global] Instance Tile_eq_dec : EqDecision Tile.
Proof. solve_decision. Defined.

(** The underlying value of each enumerator ([enum class] without
    initialisers counts from zero in declaration order). *)
Definition Shape_value (s : Shape) : Z :=
  match s with
  | Circle => 0 | Square => 1 | Diamond => 2
  | Fourpoint => 3 | Clover => 4 | Astericks => 5
  end.

Definition Color_value (c : Color) : Z :=
  match c with
  | Red => 0 | Orange => 1 | Yellow => 2
  | Green => 3 | Blue => 4 | Purple => 5
  end.

(** ** Board.h, Board.cpp *)

Abbreviation Coord := (Z * Z)%type.

(** The key order of [std::map<Coord, Tile>]: the lexicographic
    comparison of [std::pair<int, int>], in its reflexive form. *)
Definition coord_leb (a b : Coord) : bool :=
  (a.1 <? b.1) || ((a.1 =? b.1) && (a.2 <=? b.2)).

Definition entry_le (p q : Coord * Tile) : Prop := coord_leb p.1 q.1 = true.

#[global] Instance entry_le_dec : RelDecision entry_le.
Proof. intros p q. unfold entry_le. apply _. Defined.

(** Iteration order of a range-[for] over a [std::map<Coord, Tile>]. *)
Definition map_iter (m : gmap Coord Tile) : list (Coord * Tile) :=
  merge_sort entry_le (map_to_list m).

Record Board := mkBoard { tiles : gmap Coord Tile }.

Definition placeTile (x y : Z) (tile : Tile) (b : Board) : Board :=
  {| tiles := <[(x, y) := tile]> (tiles b) |}.

Definition isOccupied (x y : Z) (b : Board) : bool :=
  bool_decide (is_Some (tiles b !! (x, y))).

(** ** Game.h: the members that carry game state *)

Record Game := mkGame {
  board : Board;
  tileBag : list Tile;
  playerHand : list (option Tile);
  selectedHandIndex : Z;
  stagedTiles : gmap Coord Tile
}.

(** ** Game.cpp *)

(** The three nested loops of [initTileBag], before the shuffle. *)
Definition bagShapes : list Shape :=
  [Circle; Square; Diamond; Astericks; Clover; Fourpoint].
Definition bagColors : list Color :=
  [Red; Orange; Yellow; Green; Blue; Purple].

Definition fillTileBag : list Tile :=
  foldl (λ bag s,
    foldl (λ bag c,
      foldl (λ bag (_ : nat), bag ++ [mkTile s c]) bag (seq 0 3))
      bag bagColors)
    [] bagShapes.

Definition initTileBag (shuffle : list Tile → list Tile) : list Tile :=
  shuffle fillTileBag.

Definition drawTileFromBag (bag : list Tile) : Tile * list Tile :=
  match last bag with
  | None => (mkTile Circle Red, bag)
  | Some t => (t, removelast bag)
  end.

(** [if (playerHand.size() != 6) playerHand.assign(6, std::nullopt);] *)
Definition ensureSixSlots (hand : list (option Tile)) : list (option Tile) :=
  if decide (length hand = 6%nat) then hand else replicate 6 None.

(** Body of the loop of [refillHand] at index [i]. *)
Definition refillSlot (st : list (option Tile) * list Tile) (i : nat)
  : list (option Tile) * list Tile :=
  match st.1 !! i with
  | Some None =>
      if bool_decide (st.2 = []) then st
      else let d := drawTileFromBag st.2 in (<[i := Some d.1]> st.1, d.2)
  | _ => st
  end.

Definition refillLoop (hand : list (option Tile)) (bag : list Tile)
  : list (option Tile) * list Tile :=
  foldl refillSlot (hand, bag) (seq 0 (length hand)).

Definition refillHand (g : Game) : Game :=
  let st := refillLoop (ensureSixSlots (playerHand g)) (tileBag g) in
  {| board := board g; tileBag := st.2; playerHand := st.1;
     selectedHandIndex := selectedHandIndex g; stagedTiles := stagedTiles g |}.

(** Inner loop of [resetUnconfirmedTiles]: the first index of [idxs]
    whose slot is empty receives [t]; the flag is [placedInHand]. *)
Fixpoint placeInFirstEmpty (idxs : list nat) (hand : list (option Tile)) (t : Tile)
  : list (option Tile) * bool :=
  match idxs with
  | [] => (hand, false)
  | i :: rest =>
      match hand !! i with
      | Some None => (<[i := Some t]> hand, true)
      | _ => placeInFirstEmpty rest hand t
      end
  end.

(** Body of the outer loop of [resetUnconfirmedTiles] for one entry. *)
Definition returnStaged (st : list (option Tile) * list Tile) (p : Coord * Tile)
  : list (option Tile) * list Tile :=
  let hand := ensureSixSlots st.1 in
  let r := placeInFirstEmpty (seq 0 (length hand)) hand p.2 in
  if r.2 then (r.1, st.2) else (r.1, st.2 ++ [p.2]).

Definition resetUnconfirmedTiles (g : Game) : Game :=
  let st := foldl returnStaged (playerHand g, tileBag g) (map_iter (stagedTiles g)) in
  {| board := board g; tileBag := st.2; playerHand := st.1;
     selectedHandIndex := -1; stagedTiles := ∅ |}.

(** *** The branches of the left-click handler in [Game::run] *)

(** "Confirm Move" button: the loop over [stagedTiles], then the rest. *)
Definition commitLoop (b : Board) (l : list (Coord * Tile)) : Board :=
  foldl (λ b (p : Coord * Tile), placeTile p.1.1 p.1.2 p.2 b) b l.

Definition commitTurn (g : Game) : Game :=
  let b := commitLoop (board g) (map_iter (stagedTiles g)) in
  let g1 := refillHand {| board := b; tileBag := tileBag g;
                          playerHand := playerHand g;
                          selectedHandIndex := selectedHandIndex g;
                          stagedTiles := ∅ |} in
  {| board := board g1; tileBag := tileBag g1; playerHand := playerHand g1;
     selectedHandIndex := -1; stagedTiles := stagedTiles g1 |}.

(** "Reset Hand" button. *)
Definition resetTurn (g : Game) : Game := resetUnconfirmedTiles g.

(** Click on hand slot [i] (the handler only produces [0 <= i < 6]). *)
Definition selectSlot (i : nat) (g : Game) : Game :=
  match playerHand g !! i with
  | Some (Some _) =>
      {| board := board g; tileBag := tileBag g; playerHand := playerHand g;
         selectedHandIndex :=
           if decide (selectedHandIndex g = Z.of_nat i) then -1 else Z.of_nat i;
         stagedTiles := stagedTiles g |}
  | _ => g
  end.

(** Click on the board, resolved to [boardCoord]. *)
Definition placeAt (boardCoord : Coord) (g : Game) : Game :=
  let sel := selectedHandIndex g in
  if bool_decide (0 ≤ sel) && bool_decide (sel < Z.of_nat (length (playerHand g))) then
    match playerHand g !! Z.to_nat sel with
    | Some (Some t) =>
        if negb (isOccupied boardCoord.1 boardCoord.2 (board g))
           && bool_decide (stagedTiles g !! boardCoord = None)
        then {| board := board g; tileBag := tileBag g;
                playerHand := <[Z.to_nat sel := None]> (playerHand g);
                selectedHandIndex := -1;
                stagedTiles := <[boardCoord := t]> (stagedTiles g) |}
        else g
    | _ => g
    end
  else g.

(** State at the top of the event loop: [initTileBag();
    playerHand.assign(6, std::nullopt); refillHand();] on a
    default-constructed [Game]. *)
Definition startGame (shuffle : list Tile → list Tile) : Game :=
  refillHand {| board := {| tiles := ∅ |}; tileBag := initTileBag shuffle;
                playerHand := replicate 6 None;
                selectedHandIndex := -1; stagedTiles := ∅ |}.

Inductive Op := SelectSlot (i : nat) | PlaceAt (c : Coord) | CommitTurn | ResetTurn.

Definition applyOp (g : Game) (o : Op) : Game :=
  match o with
  | SelectSlot i => selectSlot i g
  | PlaceAt c => placeAt c g
  | CommitTurn => commitTurn g
  | ResetTurn => resetTurn g
  end.

Definition runOps (g : Game) (ops : list Op) : Game := foldl applyOp g ops.

(** *** Texture files: [joinPath], [getTextureFilename], [loadTextures] *)

#[global] Instance Shape_countable : Countable Shape.
Proof.
  refine (inj_countable' (A := nat)
            (λ s, match s with
                  | Circle => 0 | Square => 1 | Diamond => 2
                  | Fourpoint => 3 | Clover => 4 | Astericks => 5
                  end)%nat
            (λ n, match n with
                  | 0 => Circle | 1 => Square | 2 => Diamond
                  | 3 => Fourpoint | 4 => Clover | _ => Astericks
                  end)%nat _); by intros [].
Defined.

#[global] Instance Color_countable : Countable Color.
Proof.
  refine (inj_countable' (A := nat)
            (λ c, match c with
                  | Red => 0 | Orange => 1 | Yellow => 2
                  | Green => 3 | Blue => 4 | Purple => 5
                  end)%nat
            (λ n, match n with
                  | 0 => Red | 1 => Orange | 2 => Yellow
                  | 3 => Green | 4 => Blue | _ => Purple
                  end)%nat _); by intros [].
Defined.

(** The two [static const std::map]s, from their initialiser lists.
    [m.at(k)] is [m !! k], with [None] for [std::out_of_range]. *)
Definition shapeNames : gmap Shape string :=
  list_to_map [(Circle, "O"); (Square, "S"); (Diamond, "D");
               (Astericks, "A"); (Clover, "C"); (Fourpoint, "F")]%string.

Definition colorNames : gmap Color string :=
  list_to_map [(Red, "r"); (Orange, "o"); (Yellow, "y");
               (Green, "g"); (Blue, "b"); (Purple, "p")]%string.

(** Keys of the two maps in iteration order (increasing enumerator). *)
Definition Shape_le (a b : Shape) : Prop := Shape_value a ≤ Shape_value b.
Definition Color_le (a b : Color) : Prop := Color_value a ≤ Color_value b.

#[global] Instance Shape_le_dec : RelDecision Shape_le.
Proof. intros a b. unfold Shape_le. apply _. Defined.
#[global] Instance Color_le_dec : RelDecision Color_le.
Proof. intros a b. unfold Color_le. apply _. Defined.

Definition shapeKeys : list Shape :=
  merge_sort Shape_le (map_to_list shapeNames).*1.

Definition colorKeys : list Color :=
  merge_sort Color_le (map_to_list colorNames).*1.

(** [a.back()] on a non-empty string. *)
Fixpoint back (a : string) : option Ascii.ascii :=
  match a with
  | EmptyString => None
  | String ch EmptyString => Some ch
  | String _ a' => back a'
  end.

Definition joinPath (a b : string) : string :=
  if decide (a = ""%string) then b
  else if decide (back a = Some "/"%char) then a +:+ b
  else (a +:+ "/") +:+ b.

Definition getTextureFilename (s : Shape) (c : Color) (assetsDir : string)
  : option string :=
  cn ← colorNames !! c;
  sn ← shapeNames !! s;
  Some (joinPath assetsDir (cn +:+ sn +:+ ".png")).

Section TextureLoading.

(** [sf::Texture], [sf::Texture::loadFromFile] ([None] when it returns
    false) and [setSmooth(true)] belong to the graphics library. *)
Variable Texture : Type.
Variable loadFromFile : string → option Texture.
Variable setSmooth : Texture → Texture.

(** State of [loadTextures]: the member [tileTextures] and the local
    counter [loaded]. *)
Abbreviation LoadState := (gmap (Shape * Color) Texture * Z)%type.

(** Body of the inner loop for the keys [s] and [c]. *)
Definition loadOne (assetsDir : string) (st : LoadState) (s : Shape) (c : Color)
  : option LoadState :=
  fname ← getTextureFilename s c assetsDir;
  match loadFromFile fname with
  | None => Some st
  | Some tex => Some (<[(s, c) := setSmooth tex]> st.1, st.2 + 1)
  end.

Definition loadLoop (assetsDir : string) (st : LoadState) : option LoadState :=
  foldl (λ acc s,
    foldl (λ acc c, st ← acc; loadOne assetsDir st s c) acc colorKeys)
    (Some st) shapeKeys.

(** Returns the result flag and the new [tileTextures]. *)
Definition loadTextures (assetsDir : string) (tileTextures : gmap (Shape * Color) Texture)
  : option (bool * gmap (Shape * Color) Texture) :=
  st ← loadLoop assetsDir (tileTextures, 0);
  if decide (st.2 = 0) then Some (false, st.1) else Some (true, st.1).

(** The texture part of [Game::run], on the default-constructed game:
    [if (!loadTextures("assets/tiles")) loadTextures("../assets/tiles");] *)
Definition runLoadTextures : option (gmap (Shape * Color) Texture) :=
  match loadTextures "assets/tiles" ∅ with
  | None => None
  | Some (true, textures) => Some textures
  | Some (false, textures) =>
      match loadTextures "../assets/tiles" textures with
      | None => None
      | Some (_, textures') => Some textures'
      end
  end.

End TextureLoading.


(** ** Counting tiles *)

(** The tiles held in the occupied slots of a hand, in slot order. *)
Definition handTiles (hand : list (option Tile)) : list Tile := omap id hand.

Definition occupiedSlots (hand : list (option Tile)) : nat := length (handTiles hand).

(** |TileSupply| + occupied hand slots + |StagingArea| + |Board|. *)
Definition tileCount (g : Game) : nat :=
  (length (tileBag g) + occupiedSlots (playerHand g)
   + size (stagedTiles g) + size (tiles (board g)))%nat.

Definition countTile (t : Tile) (bag : list Tile) : nat :=
  length (filter (λ x, x = t) bag).

(** ** Specification-level counterparts of the two loops *)

(** Refill, slot by slot: an empty slot takes the last tile of the
    supply while there is one. *)
Fixpoint refillSlots (hand : list (option Tile)) (bag : list Tile)
  : list (option Tile) * list Tile :=
  match hand with
  | [] => ([], bag)
  | Some t :: hand' =>
      let r := refillSlots hand' bag in (Some t :: r.1, r.2)
  | None :: hand' =>
      match last bag with
      | None => (None :: hand', bag)
      | Some t =>
          let r := refillSlots hand' (removelast bag) in (Some t :: r.1, r.2)
      end
  end.

(** Reset, tile by tile: the tile goes to the lowest-index empty hand
    slot; without one it goes to the supply. *)
Definition returnToHandOrSupply (st : list (option Tile) * list Tile) (t : Tile)
  : list (option Tile) * list Tile :=
  match list_find (λ s : option Tile, s = None) st.1 with
  | Some (i, _) => (<[i := Some t]> st.1, st.2)
  | None => (st.1, st.2 ++ [t])
  end.

(** * Properties *)

(** ** The bag *)

Lemma drawTileFromBag_snoc (bag : list Tile) (t : Tile) :
  drawTileFromBag (bag ++ [t]) = (t, bag).
Proof.
  unfold drawTileFromBag. by rewrite last_snoc, removelast_last.
Qed.

Lemma bag_snoc_inv (bag : list Tile) :
  bag ≠ [] → ∃ bag' t, bag = bag' ++ [t].
Proof.
  intros Hne. destruct (last bag) as [t|] eqn:Hl.
  - apply last_Some in Hl as [bag' ->]. eauto.
  - apply last_None in Hl. done.
Qed.

Lemma ensureSixSlots_length (hand : list (option Tile)) :
  length (ensureSixSlots hand) = 6%nat.
Proof. unfold ensureSixSlots. case_decide; [done | by rewrite length_replicate]. Qed.

Lemma ensureSixSlots_id (hand : list (option Tile)) :
  length hand = 6%nat → ensureSixSlots hand = hand.
Proof. intros H. unfold ensureSixSlots. by rewrite decide_True. Qed.

(** ** The refill loop *)

(** Each iteration either leaves hand and bag alone or pops a real tile
    off a non-empty bag into the empty slot [i]. *)
Lemma refillSlot_cases (st : list (option Tile) * list Tile) (i : nat) :
  refillSlot st i = st
  ∨ ∃ bag' t, st.1 !! i = Some None ∧ st.2 = bag' ++ [t]
              ∧ refillSlot st i = (<[i := Some t]> st.1, bag').
Proof.
  destruct st as [hand bag]. unfold refillSlot. simpl.
  destruct (hand !! i) as [[t|]|] eqn:Hi; auto.
  case_bool_decide as Hbag; auto.
  destruct (bag_snoc_inv _ Hbag) as (bag' & t & ->). right. exists bag', t.
  by rewrite drawTileFromBag_snoc.
Qed.

Lemma refillSlots_nil_bag (hand : list (option Tile)) :
  refillSlots hand [] = (hand, []).
Proof.
  induction hand as [|[t|] hand IH]; simpl; [done | by rewrite IH | done].
Qed.

Lemma refillLoop_from (pre hand : list (option Tile)) (bag : list Tile) :
  foldl refillSlot (pre ++ hand, bag) (seq (length pre) (length hand))
  = (pre ++ (refillSlots hand bag).1, (refillSlots hand bag).2).
Proof.
  revert pre bag. induction hand as [|s hand IH]; intros pre bag; simpl.
  - done.
  - assert (Hs : (pre ++ s :: hand) !! length pre = Some s)
      by (by rewrite list_lookup_middle).
    assert (Hnext : ∀ x : option Tile,
               pre ++ x :: hand = (pre ++ [x]) ++ hand ∧
               S (length pre) = length (pre ++ [x])).
    { intros x. rewrite <- app_assoc, length_app. simpl. split; [done | lia]. }
    unfold refillSlot at 2. simpl. rewrite Hs. destruct s as [t|].
    + destruct (Hnext (Some t)) as [-> ->]. rewrite IH. by rewrite <- app_assoc.
    + case_bool_decide as Hbag.
      * subst bag. simpl.
        destruct (Hnext None) as [-> ->]. rewrite IH.
        rewrite refillSlots_nil_bag. simpl. by rewrite <- app_assoc.
      * destruct (bag_snoc_inv _ Hbag) as (bag' & t & ->).
        rewrite drawTileFromBag_snoc, last_snoc, removelast_last. simpl.
        rewrite insert_app_r_alt by lia. rewrite Nat.sub_diag. simpl.
        destruct (Hnext (Some t)) as [-> ->]. rewrite IH. by rewrite <- app_assoc.
Qed.

Lemma refillLoop_refillSlots (hand : list (option Tile)) (bag : list Tile) :
  refillLoop hand bag = refillSlots hand bag.
Proof.
  unfold refillLoop. pose proof (refillLoop_from [] hand bag) as H.
  simpl in H. rewrite H. by destruct (refillSlots hand bag).
Qed.

Lemma refillSlots_length hand bag :
  length (refillSlots hand bag).1 = length hand.
Proof.
  revert bag. induction hand as [|[t|] hand IH]; intros bag; simpl.
  - done.
  - by rewrite IH.
  - destruct (last bag); simpl; [by rewrite IH | done].
Qed.

Lemma refillSlots_keeps hand bag i t :
  hand !! i = Some (Some t) → (refillSlots hand bag).1 !! i = Some (Some t).
Proof.
  revert bag i. induction hand as [|[u|] hand IH]; intros bag i; simpl.
  - done.
  - destruct i; simpl; [done | apply IH].
  - destruct (last bag); destruct i; simpl; try done. apply IH.
Qed.

Lemma refillSlots_empty_left hand bag i :
  (refillSlots hand bag).1 !! i = Some None → (refillSlots hand bag).2 = [].
Proof.
  revert bag i. induction hand as [|[u|] hand IH]; intros bag i; simpl.
  - done.
  - destruct i; simpl; [done | apply IH].
  - destruct (last bag) eqn:Hl; simpl.
    + destruct i; simpl; [done | apply IH].
    + intros _. by apply last_None.
Qed.

Lemma refillSlots_conserves hand bag :
  handTiles (refillSlots hand bag).1 ++ (refillSlots hand bag).2
  ≡ₚ handTiles hand ++ bag.
Proof.
  revert bag. induction hand as [|[u|] hand IH]; intros bag; simpl.
  - done.
  - unfold handTiles in *. simpl. by rewrite IH.
  - destruct (last bag) as [t|] eqn:Hl; simpl; [|done].
    apply last_Some in Hl as [bag' ->]. rewrite removelast_last.
    unfold handTiles in *. simpl. rewrite IH.
    rewrite app_assoc. by rewrite <- Permutation_cons_append.
Qed.

Lemma refillSlots_prefix hand bag :
  (refillSlots hand bag).2 `prefix_of` bag.
Proof.
  revert bag. induction hand as [|[u|] hand IH]; intros bag; simpl.
  - done.
  - apply IH.
  - destruct (last bag) as [t|] eqn:Hl; simpl; [|done].
    apply last_Some in Hl as [bag' ->]. rewrite removelast_last.
    etrans; [apply IH|]. by apply prefix_app_r.
Qed.

Lemma refillSlots_filled hand bag i t :
  (refillSlots hand bag).1 !! i = Some (Some t) →
  hand !! i = Some (Some t) ∨ (hand !! i = Some None ∧ t ∈ bag).
Proof.
  revert bag i. induction hand as [|[u|] hand IH]; intros bag i; simpl.
  - done.
  - destruct i; simpl; [auto | apply IH].
  - destruct (last bag) as [t'|] eqn:Hl; simpl.
    + apply last_Some in Hl as [bag' ->]. rewrite removelast_last.
      destruct i; simpl.
      * intros [= ->]. right. split; [done|]. set_solver.
      * intros H. apply IH in H as [H|[H1 H2]]; [auto|]. right. split; [done|].
        set_solver.
    + auto.
Qed.

(** ** Iterating over a [std::map] *)

#[global] Instance entry_le_total : Total entry_le.
Proof.
  intros [[x1 y1] t1] [[x2 y2] t2]. unfold entry_le, coord_leb. simpl.
  destruct (Z.ltb_spec x1 x2), (Z.ltb_spec x2 x1),
    (Z.eqb_spec x1 x2), (Z.eqb_spec x2 x1),
    (Z.leb_spec y1 y2), (Z.leb_spec y2 y1); simpl; auto; lia.
Qed.

Lemma map_iter_Permutation (m : gmap Coord Tile) : map_iter m ≡ₚ map_to_list m.
Proof. apply merge_sort_Permutation. Qed.

Lemma map_iter_sorted (m : gmap Coord Tile) : Sorted entry_le (map_iter m).
Proof. apply (Sorted_merge_sort entry_le). Qed.

Lemma map_iter_length (m : gmap Coord Tile) : length (map_iter m) = size m.
Proof. by rewrite map_iter_Permutation, length_map_to_list. Qed.

Lemma map_iter_empty : map_iter ∅ = [].
Proof. unfold map_iter. by rewrite map_to_list_empty. Qed.

Lemma map_iter_NoDup (m : gmap Coord Tile) : NoDup (map_iter m).*1.
Proof. rewrite map_iter_Permutation. apply NoDup_fst_map_to_list. Qed.

Lemma map_iter_elem_of (m : gmap Coord Tile) (c : Coord) (t : Tile) :
  (c, t) ∈ map_iter m ↔ m !! c = Some t.
Proof. rewrite map_iter_Permutation. apply elem_of_map_to_list. Qed.

(** ** The commit loop *)

Lemma commitLoop_tiles (b : Board) (l : list (Coord * Tile)) :
  tiles (commitLoop b l) = list_to_map (reverse l) ∪ tiles b.
Proof.
  revert b. induction l as [|[[x y] t] l IH]; intros b; simpl.
  - by rewrite (left_id_L ∅ (∪)).
  - unfold commitLoop in *. simpl. rewrite IH. simpl.
    rewrite reverse_cons, list_to_map_app. simpl.
    rewrite insert_empty, <- (assoc_L (∪)).
    by rewrite <- insert_union_singleton_l.
Qed.

Lemma commitLoop_map_iter (b : Board) (m : gmap Coord Tile) :
  tiles (commitLoop b (map_iter m)) = m ∪ tiles b.
Proof.
  rewrite commitLoop_tiles. f_equal.
  rewrite <- (list_to_map_to_list m) at 2.
  apply list_to_map_proper.
  - rewrite fmap_reverse, reverse_Permutation. apply map_iter_NoDup.
  - by rewrite reverse_Permutation, map_iter_Permutation.
Qed.

(** ** The reset loop *)

Lemma placeInFirstEmpty_from (pre hand : list (option Tile)) (t : Tile) :
  placeInFirstEmpty (seq (length pre) (length hand)) (pre ++ hand) t
  = match list_find (λ s : option Tile, s = None) hand with
    | Some (i, _) => (pre ++ <[i := Some t]> hand, true)
    | None => (pre ++ hand, false)
    end.
Proof.
  revert pre. induction hand as [|s hand IH]; intros pre; simpl.
  - done.
  - rewrite list_lookup_middle by done. destruct s as [u|].
    + rewrite decide_False by done.
      replace (pre ++ Some u :: hand) with ((pre ++ [Some u]) ++ hand)
        by (by rewrite <- app_assoc).
      replace (S (length pre)) with (length (pre ++ [Some u]))
        by (rewrite length_app; simpl; lia).
      rewrite IH. destruct (list_find _ hand) as [[i x]|]; simpl;
        by rewrite <- app_assoc.
    + rewrite decide_True by done. simpl.
      rewrite insert_app_r_alt by lia. by rewrite Nat.sub_diag.
Qed.

Lemma returnStaged_spec (st : list (option Tile) * list Tile) (p : Coord * Tile) :
  length st.1 = 6%nat → returnStaged st p = returnToHandOrSupply st p.2.
Proof.
  intros Hlen. unfold returnStaged, returnToHandOrSupply.
  rewrite (ensureSixSlots_id _ Hlen).
  pose proof (placeInFirstEmpty_from [] st.1 p.2) as H. simpl in H. rewrite H.
  by destruct (list_find _ st.1) as [[i x]|].
Qed.

Lemma returnToHandOrSupply_length st t :
  length (returnToHandOrSupply st t).1 = length st.1.
Proof.
  unfold returnToHandOrSupply. destruct (list_find _ st.1) as [[i x]|]; simpl;
    [by rewrite length_insert | done].
Qed.

Lemma resetLoop_spec (st : list (option Tile) * list Tile) (l : list (Coord * Tile)) :
  length st.1 = 6%nat →
  foldl returnStaged st l = foldl returnToHandOrSupply st l.*2.
Proof.
  revert st. induction l as [|p l IH]; intros st Hlen; simpl; [done|].
  rewrite returnStaged_spec by done. apply IH.
  by rewrite returnToHandOrSupply_length.
Qed.

Lemma resetLoop_spec_length st (ts : list Tile) :
  length (foldl returnToHandOrSupply st ts).1 = length st.1.
Proof.
  revert st. induction ts as [|t ts IH]; intros st; simpl; [done|].
  by rewrite IH, returnToHandOrSupply_length.
Qed.

Lemma handTiles_replicate_None (n : nat) : handTiles (replicate n None) = [].
Proof. induction n as [|n IH]; [done | exact IH]. Qed.

Lemma handTiles_fill (hand : list (option Tile)) (i : nat) (t : Tile) :
  hand !! i = Some None → handTiles (<[i := Some t]> hand) ≡ₚ t :: handTiles hand.
Proof.
  revert i. unfold handTiles. induction hand as [|s hand IH]; intros i; [done|].
  destruct i; simpl.
  - by intros [= ->].
  - intros H. destruct s as [u|]; simpl; rewrite (IH _ H); [apply perm_swap | done].
Qed.

Lemma handTiles_take (hand : list (option Tile)) (i : nat) (t : Tile) :
  hand !! i = Some (Some t) → handTiles hand ≡ₚ t :: handTiles (<[i := None]> hand).
Proof.
  revert i. unfold handTiles. induction hand as [|s hand IH]; intros i; [done|].
  destruct i; simpl.
  - by intros [= ->].
  - intros H. destruct s as [u|]; simpl; rewrite (IH _ H); [apply perm_swap | done].
Qed.

Lemma returnToHandOrSupply_conserves st t :
  handTiles (returnToHandOrSupply st t).1 ++ (returnToHandOrSupply st t).2
  ≡ₚ t :: handTiles st.1 ++ st.2.
Proof.
  unfold returnToHandOrSupply.
  destruct (list_find _ st.1) as [[i x]|] eqn:Hf; simpl.
  - apply list_find_Some in Hf as (Hi & -> & _). by rewrite handTiles_fill.
  - rewrite app_assoc. by rewrite <- Permutation_cons_append.
Qed.

Lemma resetLoop_spec_conserves st (ts : list Tile) :
  handTiles (foldl returnToHandOrSupply st ts).1 ++ (foldl returnToHandOrSupply st ts).2
  ≡ₚ ts ++ handTiles st.1 ++ st.2.
Proof.
  revert st. induction ts as [|t ts IH]; intros st; simpl; [done|].
  rewrite IH, returnToHandOrSupply_conserves. symmetry. apply Permutation_middle.
Qed.

(** ** The four operations, unfolded *)

Lemma refillHand_eq (g : Game) :
  length (playerHand g) = 6%nat →
  refillHand g
  = {| board := board g;
       tileBag := (refillSlots (playerHand g) (tileBag g)).2;
       playerHand := (refillSlots (playerHand g) (tileBag g)).1;
       selectedHandIndex := selectedHandIndex g;
       stagedTiles := stagedTiles g |}.
Proof.
  intros Hlen. unfold refillHand.
  by rewrite ensureSixSlots_id, refillLoop_refillSlots.
Qed.

Lemma commitLoop_eq (b : Board) (m : gmap Coord Tile) :
  commitLoop b (map_iter m) = {| tiles := m ∪ tiles b |}.
Proof.
  pose proof (commitLoop_map_iter b m) as H.
  destruct (commitLoop b (map_iter m)) as [ts]. simpl in H. by subst.
Qed.

Lemma commitTurn_eq (g : Game) :
  length (playerHand g) = 6%nat →
  commitTurn g
  = {| board := {| tiles := stagedTiles g ∪ tiles (board g) |};
       tileBag := (refillSlots (playerHand g) (tileBag g)).2;
       playerHand := (refillSlots (playerHand g) (tileBag g)).1;
       selectedHandIndex := -1;
       stagedTiles := ∅ |}.
Proof.
  intros Hlen. unfold commitTurn. rewrite refillHand_eq by done. simpl.
  by rewrite commitLoop_eq.
Qed.

Lemma resetTurn_eq (g : Game) :
  length (playerHand g) = 6%nat →
  resetTurn g
  = {| board := board g;
       tileBag := (foldl returnToHandOrSupply (playerHand g, tileBag g)
                     (map_iter (stagedTiles g)).*2).2;
       playerHand := (foldl returnToHandOrSupply (playerHand g, tileBag g)
                        (map_iter (stagedTiles g)).*2).1;
       selectedHandIndex := -1;
       stagedTiles := ∅ |}.
Proof.
  intros Hlen. unfold resetTurn, resetUnconfirmedTiles.
  by rewrite resetLoop_spec.
Qed.

Lemma placeAt_cases (c : Coord) (g : Game) :
  placeAt c g = g
  ∨ ∃ (i : nat) (t : Tile),
      selectedHandIndex g = Z.of_nat i
      ∧ playerHand g !! i = Some (Some t)
      ∧ tiles (board g) !! c = None
      ∧ stagedTiles g !! c = None
      ∧ placeAt c g
        = {| board := board g; tileBag := tileBag g;
             playerHand := <[i := None]> (playerHand g);
             selectedHandIndex := -1;
             stagedTiles := <[c := t]> (stagedTiles g) |}.
Proof.
  unfold placeAt, isOccupied. destruct c as [x y]. simpl.
  destruct (decide (0 ≤ selectedHandIndex g)) as [H0|H0];
    [rewrite (bool_decide_eq_true_2 _ H0)
    |rewrite (bool_decide_eq_false_2 _ H0); by left].
  destruct (decide (selectedHandIndex g < Z.of_nat (length (playerHand g))))
    as [H1|H1];
    [rewrite (bool_decide_eq_true_2 _ H1)
    |rewrite (bool_decide_eq_false_2 _ H1); by left].
  simpl.
  destruct (playerHand g !! Z.to_nat (selectedHandIndex g)) as [[t|]|] eqn:Hs;
    [|by left..].
  destruct (tiles (board g) !! (x, y)) as [u|] eqn:Hb.
  { left. by rewrite bool_decide_eq_true_2 by (by eexists). }
  rewrite bool_decide_eq_false_2 by (by intros [? ?]). simpl.
  destruct (decide (stagedTiles g !! (x, y) = None)) as [Hst|Hst];
    [rewrite (bool_decide_eq_true_2 _ Hst)
    |rewrite (bool_decide_eq_false_2 _ Hst); by left].
  right. exists (Z.to_nat (selectedHandIndex g)), t.
  rewrite Z2Nat.id by lia. by split_and!.
Qed.

Lemma selectSlot_cases (i : nat) (g : Game) :
  board (selectSlot i g) = board g
  ∧ tileBag (selectSlot i g) = tileBag g
  ∧ playerHand (selectSlot i g) = playerHand g
  ∧ stagedTiles (selectSlot i g) = stagedTiles g.
Proof. unfold selectSlot. by destruct (playerHand g !! i) as [[t|]|]. Qed.

(** ** Example states *)

Definition exampleGame : Game :=
  {| board := {| tiles := {[ (0, 0) := mkTile Square Blue ]} |};
     tileBag := [mkTile Circle Red; mkTile Diamond Green; mkTile Clover Purple];
     playerHand := [Some (mkTile Circle Blue); None; Some (mkTile Square Red);
                    None; Some (mkTile Astericks Yellow); None];
     selectedHandIndex := 2;
     stagedTiles := {[ (1, 0) := mkTile Fourpoint Orange;
                       (0, -1) := mkTile Diamond Red ]} |}.

Definition examplePlay : list Op :=
  [SelectSlot 1; PlaceAt (0, 0); SelectSlot 3; PlaceAt (-1, 5); CommitTurn;
   SelectSlot 0; PlaceAt (0, 0); PlaceAt (0, 1); SelectSlot 5; ResetTurn;
   SelectSlot 2; PlaceAt (7, -2)].

(** ** Draw and initialisation *)

(** C8. Drawing from an empty supply returns the fixed placeholder tile,
    whose shape and colour are the first enumerators (Circle, Red), and
    leaves the supply empty; no exhaustion is signalled. *)
Theorem drawTileFromBag_empty :
  drawTileFromBag [] = (mkTile Circle Red, [])
  ∧ Shape_value (shape (drawTileFromBag []).1) = 0
  ∧ Color_value (color (drawTileFromBag []).1) = 0.
Proof. by split_and!. Qed.

Lemma countTile_Permutation (t : Tile) (l1 l2 : list Tile) :
  l1 ≡ₚ l2 → countTile t l1 = countTile t l2.
Proof. intros H. unfold countTile. by rewrite H. Qed.

Lemma fillTileBag_composition :
  length fillTileBag = 108%nat ∧ ∀ t, countTile t fillTileBag = 3%nat.
Proof.
  split; [reflexivity|]. intros [[] []]; vm_compute; reflexivity.
Qed.

Lemma initTileBag_length (shuffle : list Tile → list Tile) :
  (∀ l, shuffle l ≡ₚ l) → length (initTileBag shuffle) = 108%nat.
Proof.
  intros Hperm. unfold initTileBag. rewrite Hperm. apply fillTileBag_composition.
Qed.

(** C9. Right after [initTileBag] (fill, then shuffle) the supply holds
    108 tiles: exactly 3 of every (shape, colour) pair, hence nothing
    else. The shuffle is any function returning a permutation. *)
Theorem initTileBag_composition (shuffle : list Tile → list Tile) :
  (∀ l, shuffle l ≡ₚ l) →
  length (initTileBag shuffle) = 108%nat
  ∧ ∀ t, countTile t (initTileBag shuffle) = 3%nat.
Proof.
  intros Hperm. split.
  - by apply initTileBag_length.
  - intros t. unfold initTileBag. rewrite (countTile_Permutation t _ _ (Hperm _)).
    apply fillTileBag_composition.
Qed.

Lemma initTileBag_composition_witness :
  length (initTileBag reverse) = 108%nat
  ∧ ∀ t, countTile t (initTileBag reverse) = 3%nat.
Proof.
  apply (initTileBag_composition reverse). intros l. apply reverse_Permutation.
Defined.

(** ** Refill *)

(** C10. [refillHand] never reaches the placeholder branch of
    [drawTileFromBag]: every iteration of its loop either changes
    nothing or pops the last tile of a non-empty bag; so the tiles in
    hand and bag together are the same multiset before and after, every
    tile that appears in a slot was in that slot or in the bag, and with
    an empty bag nothing changes. ([ensureSixSlots] is the size check
    that opens [refillHand]; it is the identity on a six-slot hand.) *)
Theorem refillHand_no_placeholder (g : Game) :
  (∀ st i,
     refillSlot st i = st
     ∨ ∃ bag' t, st.1 !! i = Some None ∧ st.2 = bag' ++ [t]
                 ∧ refillSlot st i = (<[i := Some t]> st.1, bag'))
  ∧ handTiles (playerHand (refillHand g)) ++ tileBag (refillHand g)
    ≡ₚ handTiles (ensureSixSlots (playerHand g)) ++ tileBag g
  ∧ (∀ i t, playerHand (refillHand g) !! i = Some (Some t) →
       ensureSixSlots (playerHand g) !! i = Some (Some t)
       ∨ (ensureSixSlots (playerHand g) !! i = Some None ∧ t ∈ tileBag g))
  ∧ (tileBag g = [] →
       playerHand (refillHand g) = ensureSixSlots (playerHand g)
       ∧ tileBag (refillHand g) = []).
Proof.
  unfold refillHand. simpl. rewrite refillLoop_refillSlots. split_and!.
  - apply refillSlot_cases.
  - apply refillSlots_conserves.
  - apply refillSlots_filled.
  - intros ->. by rewrite refillSlots_nil_bag.
Qed.

(** ** Placement *)

(** C3. From [Selected(i)] with tile [t] in slot [i], placing at a
    coordinate that is neither on the board nor staged empties slot [i],
    stages [t] there, clears the selection and changes nothing else:
    board, supply, the other slots and the other staged entries. *)
Theorem placeAt_success (g : Game) (i : nat) (t : Tile) (c : Coord) :
  selectedHandIndex g = Z.of_nat i →
  playerHand g !! i = Some (Some t) →
  tiles (board g) !! c = None →
  stagedTiles g !! c = None →
  playerHand (placeAt c g) !! i = Some None
  ∧ stagedTiles (placeAt c g) !! c = Some t
  ∧ selectedHandIndex (placeAt c g) = -1
  ∧ board (placeAt c g) = board g
  ∧ tileBag (placeAt c g) = tileBag g
  ∧ length (playerHand (placeAt c g)) = length (playerHand g)
  ∧ (∀ j, j ≠ i → playerHand (placeAt c g) !! j = playerHand g !! j)
  ∧ (∀ c', c' ≠ c → stagedTiles (placeAt c g) !! c' = stagedTiles g !! c').
Proof.
  intros Hsel Hi Hb Hst.
  destruct (placeAt_cases c g) as [Heq|(i' & t' & Hsel' & Hi' & _ & _ & Heq)].
  - (* the guard cannot have failed *)
    exfalso. revert Heq. unfold placeAt, isOccupied. destruct c as [x y]. simpl.
    rewrite Hsel, Nat2Z.id, Hi, Hb, Hst.
    pose proof (lookup_lt_Some _ _ _ Hi) as Hlt.
    rewrite !bool_decide_eq_true_2 by (done || lia).
    rewrite bool_decide_eq_false_2 by (by intros [? ?]). simpl.
    intros Heq. apply (f_equal selectedHandIndex) in Heq. simpl in Heq. lia.
  - assert (i' = i) as -> by lia. assert (t' = t) as -> by congruence.
    rewrite Heq. simpl. pose proof (lookup_lt_Some _ _ _ Hi) as Hlt.
    split_and!; try done.
    + by apply list_lookup_insert_eq.
    + by apply lookup_insert_eq.
    + by rewrite length_insert.
    + intros j Hj. by apply list_lookup_insert_ne.
    + intros c' Hc'. by apply lookup_insert_ne.
Qed.

Lemma placeAt_success_witness :
  playerHand (placeAt (5, 5) exampleGame) !! 2%nat = Some None
  ∧ stagedTiles (placeAt (5, 5) exampleGame) !! (5, 5) = Some (mkTile Square Red)
  ∧ selectedHandIndex (placeAt (5, 5) exampleGame) = -1
  ∧ board (placeAt (5, 5) exampleGame) = board exampleGame
  ∧ tileBag (placeAt (5, 5) exampleGame) = tileBag exampleGame
  ∧ length (playerHand (placeAt (5, 5) exampleGame))
    = length (playerHand exampleGame)
  ∧ (∀ j, j ≠ 2%nat →
       playerHand (placeAt (5, 5) exampleGame) !! j = playerHand exampleGame !! j)
  ∧ (∀ c', c' ≠ (5, 5) →
       stagedTiles (placeAt (5, 5) exampleGame) !! c' = stagedTiles exampleGame !! c').
Proof.
  apply (placeAt_success exampleGame 2 (mkTile Square Red) (5, 5));
    vm_compute; reflexivity.
Defined.

(** C4. Placing at a coordinate that is on the board or already staged
    changes nothing at all: hand, board, staging area and supply stay as
    they are and a selection [Selected(i)] remains [Selected(i)]. *)
Theorem placeAt_rejected (g : Game) (c : Coord) :
  is_Some (tiles (board g) !! c) ∨ is_Some (stagedTiles g !! c) →
  placeAt c g = g
  ∧ ∀ i : nat, selectedHandIndex g = Z.of_nat i →
               selectedHandIndex (placeAt c g) = Z.of_nat i.
Proof.
  intros Hocc.
  assert (placeAt c g = g) as Heq; [|by rewrite Heq].
  destruct (placeAt_cases c g) as [Heq|(i & t & _ & _ & Hb & Hst & _)]; [done|].
  rewrite Hb, Hst in Hocc. by destruct Hocc as [[? ?]|[? ?]].
Qed.

Lemma placeAt_rejected_witness :
  (placeAt (0, 0) exampleGame = exampleGame
   ∧ ∀ i : nat, selectedHandIndex exampleGame = Z.of_nat i →
                selectedHandIndex (placeAt (0, 0) exampleGame) = Z.of_nat i)
  ∧ (placeAt (1, 0) exampleGame = exampleGame
     ∧ ∀ i : nat, selectedHandIndex exampleGame = Z.of_nat i →
                  selectedHandIndex (placeAt (1, 0) exampleGame) = Z.of_nat i).
Proof.
  split.
  - apply (placeAt_rejected exampleGame (0, 0)). left. vm_compute. by eexists.
  - apply (placeAt_rejected exampleGame (1, 0)). right. vm_compute. by eexists.
Defined.

(** ** Commit *)

(** C2. [commitTurn] on any state with a six-slot hand: every staged
    entry is on the board afterwards and every other coordinate of the
    board is as before; the staging area is empty and the selection
    cleared; the hand keeps its occupied slots and is refilled from the
    supply, a slot staying empty only when the supply has run out (the
    supply loses exactly the tiles the hand gains); with nothing staged
    the board is unchanged. The operation is a total function: it
    always produces a state. *)
Theorem commitTurn_post (g : Game) :
  length (playerHand g) = 6%nat →
  (∀ c t, stagedTiles g !! c = Some t → tiles (board (commitTurn g)) !! c = Some t)
  ∧ (∀ c, stagedTiles g !! c = None →
          tiles (board (commitTurn g)) !! c = tiles (board g) !! c)
  ∧ stagedTiles (commitTurn g) = ∅
  ∧ selectedHandIndex (commitTurn g) = -1
  ∧ length (playerHand (commitTurn g)) = 6%nat
  ∧ (∀ i t, playerHand g !! i = Some (Some t) →
            playerHand (commitTurn g) !! i = Some (Some t))
  ∧ (∀ i, playerHand (commitTurn g) !! i = Some None → tileBag (commitTurn g) = [])
  ∧ tileBag (commitTurn g) `prefix_of` tileBag g
  ∧ handTiles (playerHand (commitTurn g)) ++ tileBag (commitTurn g)
    ≡ₚ handTiles (playerHand g) ++ tileBag g
  ∧ (stagedTiles g = ∅ → board (commitTurn g) = board g).
Proof.
  intros Hlen. rewrite commitTurn_eq by done. simpl. split_and!; try done.
  - intros c t Hc. by apply lookup_union_Some_l.
  - intros c Hc. by apply lookup_union_r.
  - by rewrite refillSlots_length.
  - intros i t. apply refillSlots_keeps.
  - intros i. apply refillSlots_empty_left.
  - apply refillSlots_prefix.
  - apply refillSlots_conserves.
  - intros ->. rewrite (left_id_L ∅ (∪)). by destruct (board g).
Qed.

Lemma commitTurn_post_witness :
  (∀ c t, stagedTiles exampleGame !! c = Some t →
          tiles (board (commitTurn exampleGame)) !! c = Some t)
  ∧ (∀ c, stagedTiles exampleGame !! c = None →
          tiles (board (commitTurn exampleGame)) !! c
          = tiles (board exampleGame) !! c)
  ∧ stagedTiles (commitTurn exampleGame) = ∅
  ∧ selectedHandIndex (commitTurn exampleGame) = -1
  ∧ length (playerHand (commitTurn exampleGame)) = 6%nat
  ∧ (∀ i t, playerHand exampleGame !! i = Some (Some t) →
            playerHand (commitTurn exampleGame) !! i = Some (Some t))
  ∧ (∀ i, playerHand (commitTurn exampleGame) !! i = Some None →
          tileBag (commitTurn exampleGame) = [])
  ∧ tileBag (commitTurn exampleGame) `prefix_of` tileBag exampleGame
  ∧ handTiles (playerHand (commitTurn exampleGame)) ++ tileBag (commitTurn exampleGame)
    ≡ₚ handTiles (playerHand exampleGame) ++ tileBag exampleGame
  ∧ (stagedTiles exampleGame = ∅ → board (commitTurn exampleGame) = board exampleGame).
Proof. apply (commitTurn_post exampleGame). reflexivity. Defined.

(** ** Reset *)

Lemma returnToHandOrSupply_first_empty hand bag t i :
  hand !! i = Some None →
  (∀ j, (j < i)%nat → hand !! j ≠ Some None) →
  returnToHandOrSupply (hand, bag) t = (<[i := Some t]> hand, bag).
Proof.
  intros Hi Hmin. unfold returnToHandOrSupply. simpl.
  destruct (list_find _ hand) as [[k x]|] eqn:Hf.
  - apply list_find_Some in Hf as (Hk & -> & Hbefore).
    destruct (Nat.lt_trichotomy k i) as [Hlt|[->|Hgt]]; [|done|].
    + by destruct (Hmin k Hlt).
    + by destruct (Hbefore i None Hi Hgt).
  - apply list_find_None in Hf.
    apply (Forall_lookup_1 _ _ _ _ Hf) in Hi. done.
Qed.

Lemma returnToHandOrSupply_full hand bag t :
  (∀ j, hand !! j ≠ Some None) →
  returnToHandOrSupply (hand, bag) t = (hand, bag ++ [t]).
Proof.
  intros Hfull. unfold returnToHandOrSupply. simpl.
  destruct (list_find _ hand) as [[k x]|] eqn:Hf; [|done].
  apply list_find_Some in Hf as (Hk & -> & _). by destruct (Hfull k).
Qed.

Lemma returnToHandOrSupply_keeps st t i u :
  st.1 !! i = Some (Some u) → (returnToHandOrSupply st t).1 !! i = Some (Some u).
Proof.
  intros Hi. unfold returnToHandOrSupply.
  destruct (list_find _ st.1) as [[j x]|] eqn:Hf; simpl; [|done].
  apply list_find_Some in Hf as (Hj & -> & _).
  rewrite list_lookup_insert_ne; [done|]. intros ->. congruence.
Qed.

Lemma returnToHandOrSupply_bag st t :
  st.2 `prefix_of` (returnToHandOrSupply st t).2.
Proof.
  unfold returnToHandOrSupply.
  destruct (list_find _ st.1) as [[j x]|]; simpl; [done|]. by apply prefix_app_r.
Qed.

Lemma resetLoop_spec_keeps (ts : list Tile) st i u :
  st.1 !! i = Some (Some u) →
  (foldl returnToHandOrSupply st ts).1 !! i = Some (Some u).
Proof.
  revert st. induction ts as [|t ts IH]; intros st Hi; simpl; [done|].
  by apply IH, returnToHandOrSupply_keeps.
Qed.

Lemma resetLoop_spec_bag_prefix (ts : list Tile) st :
  st.2 `prefix_of` (foldl returnToHandOrSupply st ts).2.
Proof.
  revert st. induction ts as [|t ts IH]; intros st; simpl; [done|].
  etrans; [apply returnToHandOrSupply_bag | apply IH].
Qed.

(** C5. [resetTurn] on a state with a six-slot hand hands the staged
    tiles back one by one, each to the lowest-index empty hand slot, or
    to the supply when the hand has no empty slot at that moment;
    afterwards the staging area is empty, the selection is cleared and
    the board is as before.

    The tiles handed back are the entries of [stagedTiles], each once,
    in increasing key order (conjuncts four and five). Seen from outside
    (conjuncts six to nine): hand and supply after the reset hold
    exactly the tiles they held before plus the tiles of all staged
    entries, the occupied slots keep their tiles, the supply is only
    extended at the back and the hand still has six slots. Conjuncts two
    and three pin down what [returnToHandOrSupply] does. *)
Theorem resetTurn_post (g : Game) :
  length (playerHand g) = 6%nat →
  resetTurn g
  = {| board := board g;
       tileBag := (foldl returnToHandOrSupply (playerHand g, tileBag g)
                     (map_iter (stagedTiles g)).*2).2;
       playerHand := (foldl returnToHandOrSupply (playerHand g, tileBag g)
                        (map_iter (stagedTiles g)).*2).1;
       selectedHandIndex := -1;
       stagedTiles := ∅ |}
  ∧ (∀ hand bag t i,
       hand !! i = Some None →
       (∀ j, (j < i)%nat → hand !! j ≠ Some None) →
       returnToHandOrSupply (hand, bag) t = (<[i := Some t]> hand, bag))
  ∧ (∀ hand bag t,
       (∀ j, hand !! j ≠ Some None) →
       returnToHandOrSupply (hand, bag) t = (hand, bag ++ [t]))
  ∧ map_iter (stagedTiles g) ≡ₚ map_to_list (stagedTiles g)
  ∧ Sorted entry_le (map_iter (stagedTiles g))
  ∧ handTiles (playerHand (resetTurn g)) ++ tileBag (resetTurn g)
    ≡ₚ (map_to_list (stagedTiles g)).*2
       ++ handTiles (playerHand g) ++ tileBag g
  ∧ (∀ i t, playerHand g !! i = Some (Some t) →
            playerHand (resetTurn g) !! i = Some (Some t))
  ∧ tileBag g `prefix_of` tileBag (resetTurn g)
  ∧ length (playerHand (resetTurn g)) = 6%nat.
Proof.
  intros Hlen. split_and!.
  - by apply resetTurn_eq.
  - apply returnToHandOrSupply_first_empty.
  - apply returnToHandOrSupply_full.
  - apply map_iter_Permutation.
  - apply map_iter_sorted.
  - rewrite resetTurn_eq by done. cbn [playerHand tileBag].
    rewrite resetLoop_spec_conserves. cbn [fst snd].
    by rewrite map_iter_Permutation.
  - intros i t Hi. rewrite resetTurn_eq by done. cbn [playerHand].
    by apply resetLoop_spec_keeps.
  - rewrite resetTurn_eq by done. cbn [tileBag].
    apply (resetLoop_spec_bag_prefix _ (playerHand g, tileBag g)).
  - rewrite resetTurn_eq by done. cbn [playerHand].
    by rewrite resetLoop_spec_length.
Qed.

Lemma resetTurn_post_witness :
  resetTurn exampleGame
  = {| board := board exampleGame;
       tileBag := (foldl returnToHandOrSupply
                     (playerHand exampleGame, tileBag exampleGame)
                     (map_iter (stagedTiles exampleGame)).*2).2;
       playerHand := (foldl returnToHandOrSupply
                        (playerHand exampleGame, tileBag exampleGame)
                        (map_iter (stagedTiles exampleGame)).*2).1;
       selectedHandIndex := -1;
       stagedTiles := ∅ |}
  ∧ (∀ hand bag t i,
       hand !! i = Some None →
       (∀ j, (j < i)%nat → hand !! j ≠ Some None) →
       returnToHandOrSupply (hand, bag) t = (<[i := Some t]> hand, bag))
  ∧ (∀ hand bag t,
       (∀ j, hand !! j ≠ Some None) →
       returnToHandOrSupply (hand, bag) t = (hand, bag ++ [t]))
  ∧ map_iter (stagedTiles exampleGame) ≡ₚ map_to_list (stagedTiles exampleGame)
  ∧ Sorted entry_le (map_iter (stagedTiles exampleGame))
  ∧ handTiles (playerHand (resetTurn exampleGame)) ++ tileBag (resetTurn exampleGame)
    ≡ₚ (map_to_list (stagedTiles exampleGame)).*2
       ++ handTiles (playerHand exampleGame) ++ tileBag exampleGame
  ∧ (∀ i t, playerHand exampleGame !! i = Some (Some t) →
            playerHand (resetTurn exampleGame) !! i = Some (Some t))
  ∧ tileBag exampleGame `prefix_of` tileBag (resetTurn exampleGame)
  ∧ length (playerHand (resetTurn exampleGame)) = 6%nat.
Proof. apply (resetTurn_post exampleGame). reflexivity. Defined.

(** The example, evaluated: the staged tiles come back in key order,
    [(0, -1)] before [(1, 0)], into slots 1 and 3. *)
Example resetTurn_exampleGame :
  playerHand (resetTurn exampleGame)
  = [Some (mkTile Circle Blue); Some (mkTile Diamond Red);
     Some (mkTile Square Red); Some (mkTile Fourpoint Orange);
     Some (mkTile Astericks Yellow); None]
  ∧ tileBag (resetTurn exampleGame) = tileBag exampleGame.
Proof. by vm_compute. Qed.

(** ** Reachable states *)

(** What the click handler can pass to the operations: the slot loop
    only produces indices below six. *)
Definition validOp (o : Op) : Prop :=
  match o with
  | SelectSlot i => (i < 6)%nat
  | _ => True
  end.

(** What every reachable state satisfies besides the tile count. *)
Definition wellFormed (g : Game) : Prop :=
  length (playerHand g) = 6%nat ∧ stagedTiles g ##ₘ tiles (board g).

Lemma applyOp_wellFormed (g : Game) (o : Op) :
  wellFormed g → wellFormed (applyOp g o).
Proof.
  intros [Hlen Hdisj]. destruct o as [i|c| |]; cbn [applyOp].
  - destruct (selectSlot_cases i g) as (Hb & _ & Hh & Hs).
    unfold wellFormed. by rewrite Hb, Hh, Hs.
  - destruct (placeAt_cases c g) as [->|(i & t & _ & _ & Hb & _ & ->)]; [done|].
    split; simpl; [by rewrite length_insert|].
    by apply map_disjoint_insert_l_2.
  - rewrite commitTurn_eq by done. split; simpl.
    + by rewrite refillSlots_length.
    + apply map_disjoint_empty_l.
  - rewrite resetTurn_eq by done. split; simpl.
    + by rewrite resetLoop_spec_length.
    + apply map_disjoint_empty_l.
Qed.

Lemma applyOp_tileCount (g : Game) (o : Op) :
  wellFormed g → tileCount (applyOp g o) = tileCount g.
Proof.
  intros [Hlen Hdisj]. destruct o as [i|c| |]; cbn [applyOp].
  - destruct (selectSlot_cases i g) as (Hb & Hbag & Hh & Hs).
    unfold tileCount. by rewrite Hb, Hbag, Hh, Hs.
  - destruct (placeAt_cases c g) as [->|(i & t & _ & Hi & _ & Hst & ->)]; [done|].
    unfold tileCount, occupiedSlots. simpl.
    rewrite (handTiles_take _ _ _ Hi), (map_size_insert_None _ _ _ Hst).
    simpl. lia.
  - rewrite commitTurn_eq by done. unfold tileCount, occupiedSlots. simpl.
    pose proof (Permutation_length
                  (refillSlots_conserves (playerHand g) (tileBag g))) as H.
    rewrite !length_app in H.
    rewrite (map_size_disj_union _ _ Hdisj), map_size_empty. lia.
  - rewrite resetTurn_eq by done. unfold tileCount, occupiedSlots. simpl.
    pose proof (Permutation_length
                  (resetLoop_spec_conserves (playerHand g, tileBag g)
                     (map_iter (stagedTiles g)).*2)) as H.
    rewrite !length_app, length_fmap, map_iter_length in H. simpl in H.
    rewrite map_size_empty. lia.
Qed.

Lemma applyOp_board (g : Game) (o : Op) :
  wellFormed g →
  (∀ c t, tiles (board g) !! c = Some t → tiles (board (applyOp g o)) !! c = Some t)
  ∧ (o ≠ CommitTurn → board (applyOp g o) = board g).
Proof.
  intros [Hlen Hdisj]. destruct o as [i|c| |]; cbn [applyOp].
  - destruct (selectSlot_cases i g) as (-> & _). done.
  - destruct (placeAt_cases c g) as [->|(i & t & _ & _ & _ & _ & ->)]; done.
  - rewrite commitTurn_eq by done. simpl. split; [|done].
    intros c t Hc. rewrite lookup_union_r; [done|].
    by eapply map_disjoint_Some_r.
  - rewrite resetTurn_eq by done. done.
Qed.

Section Reachable.

Variable shuffle : list Tile → list Tile.

Inductive reachable : Game → Prop :=
  | reachable_start : reachable (startGame shuffle)
  | reachable_step (g : Game) (o : Op) :
      reachable g → validOp o → reachable (applyOp g o).

Lemma reachable_runOps (g : Game) (ops : list Op) :
  reachable g → Forall validOp ops → reachable (runOps g ops).
Proof.
  intros Hg Hops. revert g Hg.
  induction Hops as [|o ops Ho _ IH]; intros g Hg; simpl; [done|].
  apply IH. by apply reachable_step.
Qed.

Lemma startGame_eq :
  startGame shuffle
  = {| board := {| tiles := ∅ |};
       tileBag := (refillSlots (replicate 6 None) (initTileBag shuffle)).2;
       playerHand := (refillSlots (replicate 6 None) (initTileBag shuffle)).1;
       selectedHandIndex := -1;
       stagedTiles := ∅ |}.
Proof. unfold startGame. by rewrite refillHand_eq. Qed.

Lemma reachable_wellFormed (g : Game) : reachable g → wellFormed g.
Proof.
  induction 1 as [|g o _ IH _].
  - rewrite startGame_eq. split; cbn [playerHand stagedTiles board tiles].
    + by rewrite refillSlots_length, length_replicate.
    + apply map_disjoint_empty_l.
  - by apply applyOp_wellFormed.
Qed.

Lemma startGame_tileCount :
  (∀ l, shuffle l ≡ₚ l) → tileCount (startGame shuffle) = 108%nat.
Proof.
  intros Hperm. rewrite startGame_eq. unfold tileCount, occupiedSlots.
  cbn [playerHand stagedTiles board tiles tileBag].
  pose proof (Permutation_length
                (refillSlots_conserves (replicate 6 None) (initTileBag shuffle)))
    as H.
  rewrite !length_app, handTiles_replicate_None in H.
  pose proof (initTileBag_length shuffle Hperm) as Hlen.
  rewrite map_size_empty. change (length (@nil Tile)) with 0%nat in H. lia.
Qed.

End Reachable.

Lemma runOps_wellFormed (g : Game) (ops : list Op) :
  wellFormed g → wellFormed (runOps g ops).
Proof.
  revert g. induction ops as [|o ops IH]; intros g Hg; simpl; [done|].
  by apply IH, applyOp_wellFormed.
Qed.

Lemma runOps_board (g : Game) (ops : list Op) :
  wellFormed g →
  (∀ c t, tiles (board g) !! c = Some t → tiles (board (runOps g ops)) !! c = Some t)
  ∧ (CommitTurn ∉ ops → board (runOps g ops) = board g).
Proof.
  revert g. induction ops as [|o ops IH]; intros g Hg; simpl; [done|].
  destruct (applyOp_board g o Hg) as [Hkeep Hsame].
  destruct (IH (applyOp g o) (applyOp_wellFormed g o Hg)) as [IHkeep IHsame].
  split.
  - intros c t Hc. by apply IHkeep, Hkeep.
  - intros Hnot. apply not_elem_of_cons in Hnot as [Ho Hops].
    rewrite IHsame by done. by apply Hsame.
Qed.

(** ** Invariants of the reachable states *)

(** C7. In every reachable state no coordinate is both staged and on
    the board. *)
Theorem staged_disjoint_board (shuffle : list Tile → list Tile) (g : Game) :
  reachable shuffle g → dom (stagedTiles g) ## dom (tiles (board g)).
Proof.
  intros Hg. apply map_disjoint_dom. by apply (reachable_wellFormed shuffle).
Qed.

Lemma staged_disjoint_board_witness :
  dom (stagedTiles (runOps (startGame reverse) examplePlay))
  ## dom (tiles (board (runOps (startGame reverse) examplePlay))).
Proof.
  apply (staged_disjoint_board reverse).
  apply reachable_runOps; [apply reachable_start|].
  repeat constructor; simpl; lia.
Defined.

(** C6. The board is append-only: from a reachable state, whatever
    operations follow, an entry of the board stays where it is with the
    same tile, and as long as none of them is a commit the board does
    not change at all. *)
Theorem board_append_only (shuffle : list Tile → list Tile) (g : Game)
    (ops : list Op) :
  reachable shuffle g →
  Forall validOp ops →
  (∀ c t, tiles (board g) !! c = Some t → tiles (board (runOps g ops)) !! c = Some t)
  ∧ (CommitTurn ∉ ops → board (runOps g ops) = board g).
Proof.
  intros Hg _. by apply runOps_board, (reachable_wellFormed shuffle).
Qed.

Lemma board_append_only_witness :
  (∀ c t,
     tiles (board (runOps (startGame reverse) examplePlay)) !! c = Some t →
     tiles (board (runOps (runOps (startGame reverse) examplePlay)
                     [SelectSlot 0; PlaceAt (3, 3); CommitTurn; ResetTurn]))
       !! c = Some t)
  ∧ (CommitTurn ∉ [SelectSlot 0; PlaceAt (3, 3); CommitTurn; ResetTurn] →
     board (runOps (runOps (startGame reverse) examplePlay)
              [SelectSlot 0; PlaceAt (3, 3); CommitTurn; ResetTurn])
     = board (runOps (startGame reverse) examplePlay)).
Proof.
  apply (board_append_only reverse).
  - apply reachable_runOps; [apply reachable_start|].
    repeat constructor; simpl; lia.
  - repeat constructor; simpl; lia.
Defined.

(** C1. Conservation: in every state reachable from the start of the
    game (shuffled 108-tile supply, refilled six-slot hand, nothing
    staged, empty board) by slot clicks, placements, commits and resets,
    supply + occupied hand slots + staged tiles + board tiles = 108. *)
Theorem tile_conservation (shuffle : list Tile → list Tile) (g : Game) :
  (∀ l, shuffle l ≡ₚ l) →
  reachable shuffle g →
  tileCount g = 108%nat.
Proof.
  intros Hperm. induction 1 as [|g o Hg IH _].
  - by apply startGame_tileCount.
  - rewrite applyOp_tileCount; [done|]. by apply (reachable_wellFormed shuffle).
Qed.

Lemma tile_conservation_witness :
  tileCount (runOps (startGame reverse) examplePlay) = 108%nat.
Proof.
  apply (tile_conservation reverse).
  - intros l. apply reverse_Permutation.
  - apply reachable_runOps; [apply reachable_start|].
    repeat constructor; simpl; lia.
Defined.

(** The example play, evaluated. *)
Example examplePlay_result :
  let g := runOps (startGame reverse) examplePlay in
  map_iter (tiles (board g))
  = [((-1, 5), mkTile Circle Orange); ((0, 0), mkTile Circle Red)]
  ∧ map_iter (stagedTiles g) = [((7, -2), mkTile Circle Red)]
  ∧ occupiedSlots (playerHand g) = 5%nat
  ∧ length (tileBag g) = 100%nat
  ∧ selectedHandIndex g = -1.
Proof. by vm_compute. Qed.

(** * Further properties of the modelled code *)

(** ** Board.cpp *)

(** X1. [placeTile] followed by a lookup: the written coordinate holds
    the new tile and is occupied; every other coordinate reads as
    before, through [getTiles] and through [isOccupied]. *)
Theorem placeTile_lookup (x y : Z) (t : Tile) (b : Board) :
  tiles (placeTile x y t b) !! (x, y) = Some t
  ∧ isOccupied x y (placeTile x y t b) = true
  ∧ ∀ x' y', (x', y') ≠ (x, y) →
      tiles (placeTile x y t b) !! (x', y') = tiles b !! (x', y')
      ∧ isOccupied x' y' (placeTile x y t b) = isOccupied x' y' b.
Proof.
  unfold placeTile, isOccupied. simpl. split_and!.
  - apply lookup_insert_eq.
  - apply bool_decide_eq_true_2. rewrite lookup_insert_eq. by eexists.
  - intros x' y' Hne. by rewrite lookup_insert_ne.
Qed.

(** X2. [placeTile] does not check occupancy: on an occupied coordinate
    it replaces the tile and the board keeps its size; on a free one the
    board grows by one entry. *)
Theorem placeTile_size (x y : Z) (t : Tile) (b : Board) :
  size (tiles (placeTile x y t b))
  = (if isOccupied x y b then size (tiles b) else S (size (tiles b)))
  ∧ (∀ u, tiles b !! (x, y) = Some u →
          tiles (placeTile x y t b) !! (x, y) = Some t).
Proof.
  unfold placeTile, isOccupied. simpl. split.
  - rewrite map_size_insert. destruct (tiles b !! (x, y)) as [u|] eqn:Hb.
    + by rewrite bool_decide_eq_true_2 by (by eexists).
    + by rewrite bool_decide_eq_false_2 by (by intros [? ?]).
  - intros u _. apply lookup_insert_eq.
Qed.

(** ** The bag *)

(** X3. Drawing from a non-empty bag pops its last tile: the bag before
    is the bag after with the drawn tile pushed back, so the bag is one
    tile shorter and the drawn tile was in it. *)
Theorem drawTileFromBag_nonempty (bag : list Tile) :
  bag ≠ [] →
  bag = (drawTileFromBag bag).2 ++ [(drawTileFromBag bag).1]
  ∧ S (length (drawTileFromBag bag).2) = length bag
  ∧ (drawTileFromBag bag).1 ∈ bag.
Proof.
  intros Hne. destruct (bag_snoc_inv bag Hne) as (bag' & t & ->).
  rewrite drawTileFromBag_snoc. simpl. split_and!.
  - done.
  - rewrite length_app. simpl. lia.
  - set_solver.
Qed.

Lemma drawTileFromBag_nonempty_witness :
  tileBag exampleGame
  = (drawTileFromBag (tileBag exampleGame)).2
    ++ [(drawTileFromBag (tileBag exampleGame)).1]
  ∧ S (length (drawTileFromBag (tileBag exampleGame)).2)
    = length (tileBag exampleGame)
  ∧ (drawTileFromBag (tileBag exampleGame)).1 ∈ tileBag exampleGame.
Proof. apply (drawTileFromBag_nonempty (tileBag exampleGame)). done. Defined.

(** ** Refill *)

Lemma refillSlots_idem hand bag :
  refillSlots (refillSlots hand bag).1 (refillSlots hand bag).2
  = refillSlots hand bag.
Proof.
  revert bag. induction hand as [|[u|] hand IH]; intros bag; simpl.
  - done.
  - by rewrite IH.
  - destruct (last bag) as [t|] eqn:Hl; simpl.
    + by rewrite IH.
    + by rewrite Hl.
Qed.

Lemma occupiedSlots_cons_Some (u : Tile) (hand : list (option Tile)) :
  occupiedSlots (Some u :: hand) = S (occupiedSlots hand).
Proof. reflexivity. Qed.

Lemma occupiedSlots_cons_None (hand : list (option Tile)) :
  occupiedSlots (None :: hand) = occupiedSlots hand.
Proof. reflexivity. Qed.

Lemma occupiedSlots_le (hand : list (option Tile)) :
  (occupiedSlots hand ≤ length hand)%nat.
Proof.
  induction hand as [|[u|] hand IH].
  - done.
  - rewrite occupiedSlots_cons_Some. simpl. lia.
  - rewrite occupiedSlots_cons_None. simpl. lia.
Qed.

Lemma refillSlots_occupied hand bag :
  occupiedSlots (refillSlots hand bag).1
  = (length hand `min` (occupiedSlots hand + length bag))%nat.
Proof.
  revert bag. induction hand as [|[u|] hand IH]; intros bag.
  - done.
  - cbn [refillSlots fst]. rewrite !occupiedSlots_cons_Some, IH.
    cbn [length]. lia.
  - cbn [refillSlots]. destruct (last bag) as [t|] eqn:Hl.
    + apply last_Some in Hl as [bag' ->]. rewrite removelast_last.
      cbn [fst]. rewrite occupiedSlots_cons_Some, occupiedSlots_cons_None, IH.
      rewrite length_app. cbn [length]. lia.
    + apply last_None in Hl as ->. cbn [fst length].
      pose proof (occupiedSlots_le hand).
      rewrite occupiedSlots_cons_None. lia.
Qed.

Lemma refillHand_unfold (g : Game) :
  refillHand g
  = {| board := board g;
       tileBag := (refillSlots (ensureSixSlots (playerHand g)) (tileBag g)).2;
       playerHand := (refillSlots (ensureSixSlots (playerHand g)) (tileBag g)).1;
       selectedHandIndex := selectedHandIndex g;
       stagedTiles := stagedTiles g |}.
Proof. unfold refillHand. by rewrite refillLoop_refillSlots. Qed.

(** X4. Refilling twice is refilling once: after [refillHand] either no
    slot is empty or the bag is, so a second call changes nothing. *)
Theorem refillHand_idempotent (g : Game) :
  refillHand (refillHand g) = refillHand g.
Proof.
  rewrite (refillHand_unfold g).
  rewrite refillHand_eq
    by (cbn [playerHand]; by rewrite refillSlots_length, ensureSixSlots_length).
  cbn [board tileBag playerHand selectedHandIndex stagedTiles].
  by rewrite refillSlots_idem.
Qed.

(** X5. How far a refill gets: on a six-slot hand the number of
    occupied slots afterwards is the smaller of 6 and (occupied slots +
    tiles in the bag), and the bag has lost exactly the tiles the hand
    gained. *)
Theorem refillHand_occupied (g : Game) :
  length (playerHand g) = 6%nat →
  occupiedSlots (playerHand (refillHand g))
  = (6 `min` (occupiedSlots (playerHand g) + length (tileBag g)))%nat
  ∧ (length (tileBag (refillHand g)) + occupiedSlots (playerHand (refillHand g))
     = length (tileBag g) + occupiedSlots (playerHand g))%nat.
Proof.
  intros Hlen. rewrite refillHand_eq by done. simpl. split.
  - by rewrite refillSlots_occupied, Hlen.
  - pose proof (Permutation_length
                  (refillSlots_conserves (playerHand g) (tileBag g))) as H.
    rewrite !length_app in H. unfold occupiedSlots. lia.
Qed.

Lemma refillHand_occupied_witness :
  occupiedSlots (playerHand (refillHand exampleGame))
  = (6 `min` (occupiedSlots (playerHand exampleGame)
              + length (tileBag exampleGame)))%nat
  ∧ (length (tileBag (refillHand exampleGame))
     + occupiedSlots (playerHand (refillHand exampleGame))
     = length (tileBag exampleGame) + occupiedSlots (playerHand exampleGame))%nat.
Proof. apply (refillHand_occupied exampleGame). reflexivity. Defined.

Lemma refillSlots_all_empty (bag ts : list Tile) :
  refillSlots (replicate (length ts) None) (bag ++ ts)
  = (Some <$> reverse ts, bag).
Proof.
  induction ts as [|t ts IH] using rev_ind.
  - simpl. by rewrite app_nil_r.
  - rewrite length_app, Nat.add_comm. simpl.
    rewrite app_assoc, last_snoc, removelast_last, IH. simpl.
    by rewrite reverse_snoc.
Qed.

(** X6. The state the game starts in: the hand holds the last six tiles
    of the shuffled bag, slot 0 the very last one, the bag keeps the
    other 102 in order, nothing is staged or placed and no slot is
    selected. *)
Theorem startGame_state (shuffle : list Tile → list Tile) :
  (∀ l, shuffle l ≡ₚ l) →
  startGame shuffle
  = {| board := {| tiles := ∅ |};
       tileBag := take 102 (initTileBag shuffle);
       playerHand := Some <$> reverse (drop 102 (initTileBag shuffle));
       selectedHandIndex := -1;
       stagedTiles := ∅ |}.
Proof.
  intros Hperm. pose proof (initTileBag_length shuffle Hperm) as Hlen.
  unfold startGame. rewrite refillHand_eq by done.
  cbn [board tileBag playerHand selectedHandIndex stagedTiles].
  assert (length (drop 102 (initTileBag shuffle)) = 6%nat) as Hd
    by (rewrite length_drop; lia).
  pose proof (refillSlots_all_empty (take 102 (initTileBag shuffle))
                (drop 102 (initTileBag shuffle))) as H.
  rewrite take_drop, Hd in H. by rewrite H.
Qed.

Lemma startGame_state_witness :
  startGame reverse
  = {| board := {| tiles := ∅ |};
       tileBag := take 102 (initTileBag reverse);
       playerHand := Some <$> reverse (drop 102 (initTileBag reverse));
       selectedHandIndex := -1;
       stagedTiles := ∅ |}.
Proof. apply (startGame_state reverse). intros l. apply reverse_Permutation. Defined.

(** ** How the operations compose *)

Lemma Game_eta (g : Game) :
  {| board := board g; tileBag := tileBag g; playerHand := playerHand g;
     selectedHandIndex := selectedHandIndex g; stagedTiles := stagedTiles g |} = g.
Proof. by destruct g. Qed.

(** X7. Clicking an occupied slot that is not the selected one selects
    it, whatever was selected before; clicking it again clears the
    selection. Nothing else changes, so from [Idle] two clicks on the
    same slot give back the state. *)
Theorem selectSlot_toggle (g : Game) (i : nat) (t : Tile) :
  playerHand g !! i = Some (Some t) →
  selectedHandIndex g ≠ Z.of_nat i →
  selectSlot i g
  = {| board := board g; tileBag := tileBag g; playerHand := playerHand g;
       selectedHandIndex := Z.of_nat i; stagedTiles := stagedTiles g |}
  ∧ selectSlot i (selectSlot i g)
    = {| board := board g; tileBag := tileBag g; playerHand := playerHand g;
         selectedHandIndex := -1; stagedTiles := stagedTiles g |}
  ∧ (selectedHandIndex g = -1 → selectSlot i (selectSlot i g) = g).
Proof.
  intros Hi Hsel.
  assert (selectSlot i g
          = {| board := board g; tileBag := tileBag g; playerHand := playerHand g;
               selectedHandIndex := Z.of_nat i; stagedTiles := stagedTiles g |})
    as H1.
  { unfold selectSlot. rewrite Hi. by rewrite decide_False. }
  assert (selectSlot i (selectSlot i g)
          = {| board := board g; tileBag := tileBag g; playerHand := playerHand g;
               selectedHandIndex := -1; stagedTiles := stagedTiles g |})
    as H2.
  { rewrite H1. unfold selectSlot. simpl. rewrite Hi. by rewrite decide_True. }
  split_and!; [done..|].
  intros Hidle. rewrite H2, <- Hidle. apply Game_eta.
Qed.

Lemma selectSlot_toggle_witness :
  selectSlot 4 exampleGame
  = {| board := board exampleGame; tileBag := tileBag exampleGame;
       playerHand := playerHand exampleGame;
       selectedHandIndex := Z.of_nat 4; stagedTiles := stagedTiles exampleGame |}
  ∧ selectSlot 4 (selectSlot 4 exampleGame)
    = {| board := board exampleGame; tileBag := tileBag exampleGame;
         playerHand := playerHand exampleGame;
         selectedHandIndex := -1; stagedTiles := stagedTiles exampleGame |}
  ∧ (selectedHandIndex exampleGame = -1 →
     selectSlot 4 (selectSlot 4 exampleGame) = exampleGame).
Proof.
  apply (selectSlot_toggle exampleGame 4 (mkTile Astericks Yellow)).
  - reflexivity.
  - vm_compute. discriminate.
Defined.

(** X8. A board click does nothing unless a slot is selected, the
    index is inside the hand and the slot holds a tile: with
    [selectedHandIndex] negative (in particular -1), past the end of the
    hand, or on an empty slot, the state is returned as it is. *)
Theorem placeAt_without_selection (g : Game) (c : Coord) :
  selectedHandIndex g < 0
  ∨ Z.of_nat (length (playerHand g)) ≤ selectedHandIndex g
  ∨ playerHand g !! Z.to_nat (selectedHandIndex g) = Some None →
  placeAt c g = g.
Proof.
  intros H.
  destruct (placeAt_cases c g) as [Heq|(i & t & Hsel & Hi & _)]; [done|].
  pose proof (lookup_lt_Some _ _ _ Hi) as Hlt.
  rewrite Hsel, Nat2Z.id in H. destruct H as [H|[H|H]]; [lia | lia | congruence].
Qed.

Lemma placeAt_without_selection_witness :
  placeAt (5, 5) (resetTurn exampleGame) = resetTurn exampleGame.
Proof.
  apply (placeAt_without_selection (resetTurn exampleGame) (5, 5)).
  left. vm_compute. reflexivity.
Defined.

Lemma map_iter_singleton (c : Coord) (t : Tile) : map_iter {[ c := t ]} = [(c, t)].
Proof.
  apply Permutation_singleton_r.
  by rewrite map_iter_Permutation, map_to_list_singleton.
Qed.

(** X9. Place, then reset, is a round trip: with nothing staged
    before, a tile placed from slot [i] comes back to slot [i] when no
    lower slot is empty; hand, bag and board are as before the placement
    and the selection is cleared. *)
Theorem placeAt_resetTurn (g : Game) (i : nat) (t : Tile) (c : Coord) :
  length (playerHand g) = 6%nat →
  stagedTiles g = ∅ →
  selectedHandIndex g = Z.of_nat i →
  playerHand g !! i = Some (Some t) →
  (∀ j, (j < i)%nat → playerHand g !! j ≠ Some None) →
  tiles (board g) !! c = None →
  resetTurn (placeAt c g)
  = {| board := board g; tileBag := tileBag g; playerHand := playerHand g;
       selectedHandIndex := -1; stagedTiles := ∅ |}.
Proof.
  intros Hlen Hst Hsel Hi Hlow Hb.
  destruct (placeAt_cases c g) as [Heq|(i' & t' & Hsel' & Hi' & _ & _ & Heq)].
  - exfalso. revert Heq. unfold placeAt, isOccupied. destruct c as [x y]. simpl.
    rewrite Hsel, Nat2Z.id, Hi, Hb, Hst, Hlen, lookup_empty.
    pose proof (lookup_lt_Some _ _ _ Hi) as Hlt.
    rewrite !bool_decide_eq_true_2 by (done || lia).
    rewrite bool_decide_eq_false_2 by (by intros [? ?]). simpl.
    intros Heq. apply (f_equal selectedHandIndex) in Heq. simpl in Heq. lia.
  - assert (i' = i) as -> by lia. assert (t' = t) as -> by congruence.
    rewrite Heq, resetTurn_eq by (simpl; by rewrite length_insert).
    cbn [board tileBag playerHand selectedHandIndex stagedTiles].
    rewrite Hst, insert_empty, map_iter_singleton.
    cbn [fmap list_fmap snd foldl].
    pose proof (lookup_lt_Some _ _ _ Hi) as Hlt.
    rewrite (returnToHandOrSupply_first_empty _ _ _ i).
    + cbn [fst snd]. by rewrite list_insert_insert_eq, list_insert_id.
    + by apply list_lookup_insert_eq.
    + intros j Hj. rewrite list_lookup_insert_ne by lia. by apply Hlow.
Qed.

Definition exampleFullHand : Game :=
  {| board := {| tiles := {[ (0, 0) := mkTile Square Blue ]} |};
     tileBag := [mkTile Circle Red; mkTile Diamond Green];
     playerHand := [Some (mkTile Circle Blue); Some (mkTile Clover Green);
                    Some (mkTile Square Red); Some (mkTile Diamond Purple);
                    Some (mkTile Astericks Yellow); Some (mkTile Square Red)];
     selectedHandIndex := 3;
     stagedTiles := ∅ |}.

Lemma placeAt_resetTurn_witness :
  resetTurn (placeAt (1, 0) exampleFullHand)
  = {| board := board exampleFullHand; tileBag := tileBag exampleFullHand;
       playerHand := playerHand exampleFullHand;
       selectedHandIndex := -1; stagedTiles := ∅ |}.
Proof.
  apply (placeAt_resetTurn exampleFullHand 3 (mkTile Diamond Purple) (1, 0));
    try reflexivity.
  intros j Hj.
  destruct j as [|[|[|j]]]; [vm_compute; discriminate..|lia].
Defined.

(** X10. Committing twice is committing once (six-slot hand): the
    second commit finds nothing staged and nothing left to refill. *)
Theorem commitTurn_idempotent (g : Game) :
  length (playerHand g) = 6%nat →
  commitTurn (commitTurn g) = commitTurn g.
Proof.
  intros Hlen. rewrite (commitTurn_eq g) by done.
  rewrite commitTurn_eq by (cbn [playerHand]; by rewrite refillSlots_length).
  cbn [board tileBag playerHand selectedHandIndex stagedTiles tiles].
  by rewrite refillSlots_idem, (left_id_L ∅ (∪)).
Qed.

Lemma commitTurn_idempotent_witness :
  commitTurn (commitTurn exampleGame) = commitTurn exampleGame.
Proof. apply (commitTurn_idempotent exampleGame). reflexivity. Defined.

(** X11. Resetting with nothing staged only clears the selection, for
    any hand (the size check sits inside the loop and does not run); so
    resetting twice is resetting once. *)
Theorem resetTurn_nothing_staged (g : Game) :
  (stagedTiles g = ∅ →
   resetTurn g
   = {| board := board g; tileBag := tileBag g; playerHand := playerHand g;
        selectedHandIndex := -1; stagedTiles := ∅ |})
  ∧ resetTurn (resetTurn g) = resetTurn g.
Proof.
  split.
  - intros Hst. unfold resetTurn, resetUnconfirmedTiles.
    by rewrite Hst, map_iter_empty.
  - unfold resetTurn. unfold resetUnconfirmedTiles at 1.
    cbn [stagedTiles resetUnconfirmedTiles]. by rewrite map_iter_empty.
Qed.

(** ** More invariants of the reachable states *)

(** A slot is selected only while it holds a tile. *)
Definition selectionValid (g : Game) : Prop :=
  selectedHandIndex g = -1
  ∨ ∃ (i : nat) (t : Tile),
      selectedHandIndex g = Z.of_nat i ∧ playerHand g !! i = Some (Some t).

(** Every staged tile has an empty hand slot to go back to. *)
Definition roomForStaged (g : Game) : Prop :=
  (occupiedSlots (playerHand g) + size (stagedTiles g) ≤ 6)%nat.

Definition inPlay (g : Game) : Prop :=
  wellFormed g ∧ roomForStaged g ∧ selectionValid g.

(** All tiles of the game: supply, hand, staging area, board. *)
Definition allTiles (g : Game) : list Tile :=
  tileBag g ++ handTiles (playerHand g)
  ++ (map_to_list (stagedTiles g)).*2 ++ (map_to_list (tiles (board g))).*2.

Lemma occupiedSlots_full (hand : list (option Tile)) :
  Forall (λ s, s ≠ None) hand → occupiedSlots hand = length hand.
Proof.
  induction 1 as [|[u|] hand Hs _ IH]; [done| |done].
  rewrite occupiedSlots_cons_Some. simpl. by rewrite IH.
Qed.

Lemma occupiedSlots_fill (hand : list (option Tile)) (i : nat) (t : Tile) :
  hand !! i = Some None →
  occupiedSlots (<[i := Some t]> hand) = S (occupiedSlots hand).
Proof.
  intros Hi. unfold occupiedSlots. by rewrite (handTiles_fill _ _ _ Hi).
Qed.

Lemma resetLoop_spec_bag (ts : list Tile) (st : list (option Tile) * list Tile) :
  (occupiedSlots st.1 + length ts ≤ length st.1)%nat →
  (foldl returnToHandOrSupply st ts).2 = st.2.
Proof.
  revert st. induction ts as [|t ts IH]; intros [hand bag] Hroom; [done|].
  simpl in Hroom. cbn [foldl]. unfold returnToHandOrSupply at 2. cbn [fst snd].
  destruct (list_find _ hand) as [[i x]|] eqn:Hf.
  - apply list_find_Some in Hf as (Hi & -> & _).
    rewrite IH; [done|]. cbn [fst].
    rewrite length_insert, (occupiedSlots_fill _ _ _ Hi). lia.
  - apply list_find_None in Hf. apply occupiedSlots_full in Hf. lia.
Qed.

Lemma resetTurn_in_play (g : Game) :
  wellFormed g → roomForStaged g →
  tileBag (resetTurn g) = tileBag g
  ∧ handTiles (playerHand (resetTurn g))
    ≡ₚ (map_iter (stagedTiles g)).*2 ++ handTiles (playerHand g).
Proof.
  intros [Hlen _] Hroom. unfold roomForStaged in Hroom.
  rewrite resetTurn_eq by done. cbn [tileBag playerHand].
  assert ((foldl returnToHandOrSupply (playerHand g, tileBag g)
             (map_iter (stagedTiles g)).*2).2 = tileBag g) as Hbag.
  { rewrite resetLoop_spec_bag; [done|]. cbn [fst].
    rewrite length_fmap, map_iter_length. lia. }
  split; [done|].
  pose proof (resetLoop_spec_conserves (playerHand g, tileBag g)
                (map_iter (stagedTiles g)).*2) as H.
  rewrite Hbag in H. cbn [fst snd] in H. rewrite app_assoc in H.
  by apply Permutation_app_inv_r in H.
Qed.

Lemma applyOp_roomForStaged (g : Game) (o : Op) :
  wellFormed g → roomForStaged g → roomForStaged (applyOp g o).
Proof.
  intros [Hlen Hdisj] Hroom. unfold roomForStaged in *.
  destruct o as [i|c| |]; cbn [applyOp].
  - destruct (selectSlot_cases i g) as (_ & _ & -> & ->). done.
  - destruct (placeAt_cases c g) as [->|(i & t & _ & Hi & _ & Hst & ->)]; [done|].
    cbn [playerHand stagedTiles].
    rewrite (map_size_insert_None _ _ _ Hst).
    pose proof (Permutation_length (handTiles_take _ _ _ Hi)) as H.
    unfold occupiedSlots in *. simpl in H. lia.
  - rewrite commitTurn_eq by done. cbn [playerHand stagedTiles].
    rewrite map_size_empty.
    pose proof (occupiedSlots_le (refillSlots (playerHand g) (tileBag g)).1) as H.
    rewrite refillSlots_length in H. lia.
  - rewrite resetTurn_eq by done. cbn [playerHand stagedTiles].
    rewrite map_size_empty.
    pose proof (occupiedSlots_le
                  (foldl returnToHandOrSupply (playerHand g, tileBag g)
                     (map_iter (stagedTiles g)).*2).1) as H.
    rewrite resetLoop_spec_length in H. cbn [fst] in H. lia.
Qed.

Lemma applyOp_selectionValid (g : Game) (o : Op) :
  selectionValid g → selectionValid (applyOp g o).
Proof.
  intros Hsel. destruct o as [i|c| |]; cbn [applyOp].
  - unfold selectSlot. destruct (playerHand g !! i) as [[t|]|] eqn:Hi; [|done..].
    unfold selectionValid. cbn [selectedHandIndex playerHand].
    case_decide; [by left|]. right. by exists i, t.
  - destruct (placeAt_cases c g) as [->|(i & t & _ & _ & _ & _ & ->)]; [done|].
    by left.
  - by left.
  - by left.
Qed.

Lemma applyOp_inPlay (g : Game) (o : Op) : inPlay g → inPlay (applyOp g o).
Proof.
  intros (Hwf & Hroom & Hsel). split_and!.
  - by apply applyOp_wellFormed.
  - by apply applyOp_roomForStaged.
  - by apply applyOp_selectionValid.
Qed.

Lemma startGame_inPlay (shuffle : list Tile → list Tile) : inPlay (startGame shuffle).
Proof.
  pose proof (reachable_wellFormed shuffle _ (reachable_start shuffle)) as Hwf.
  split_and!; [done| |by left].
  unfold roomForStaged. destruct Hwf as [Hlen _].
  pose proof (occupiedSlots_le (playerHand (startGame shuffle))) as H.
  rewrite Hlen in H.
  replace (stagedTiles (startGame shuffle)) with (∅ : gmap Coord Tile)
    by reflexivity.
  rewrite map_size_empty. lia.
Qed.

Lemma reachable_inPlay (shuffle : list Tile → list Tile) (g : Game) :
  reachable shuffle g → inPlay g.
Proof.
  induction 1 as [|g o _ IH _]; [apply startGame_inPlay | by apply applyOp_inPlay].
Qed.

Lemma applyOp_supply (g : Game) (o : Op) :
  inPlay g → tileBag (applyOp g o) `prefix_of` tileBag g.
Proof.
  intros ([Hlen Hdisj] & Hroom & _). destruct o as [i|c| |]; cbn [applyOp].
  - destruct (selectSlot_cases i g) as (_ & -> & _). done.
  - destruct (placeAt_cases c g) as [->|(i & t & _ & _ & _ & _ & ->)]; done.
  - rewrite commitTurn_eq by done. apply refillSlots_prefix.
  - destruct (resetTurn_in_play g) as [-> _]; done.
Qed.

Lemma runOps_supply (g : Game) (ops : list Op) :
  inPlay g → tileBag (runOps g ops) `prefix_of` tileBag g.
Proof.
  revert g. induction ops as [|o ops IH]; intros g Hg; simpl; [done|].
  etrans; [apply IH; by apply applyOp_inPlay | by apply applyOp_supply].
Qed.

Lemma map_to_list_disj_union (m1 m2 : gmap Coord Tile) :
  m1 ##ₘ m2 → map_to_list (m1 ∪ m2) ≡ₚ map_to_list m1 ++ map_to_list m2.
Proof.
  induction m1 as [|c t m1 Hc IH] using map_ind; intros Hdisj.
  - by rewrite (left_id_L ∅ (∪)), map_to_list_empty.
  - apply map_disjoint_insert_l in Hdisj as [Hc2 Hdisj].
    rewrite <- insert_union_l.
    rewrite map_to_list_insert by (by apply lookup_union_None).
    rewrite map_to_list_insert by done. simpl. by rewrite IH.
Qed.

Lemma Permutation_swap_sides (l1 l2 k1 k2 : list Tile) :
  l1 ++ l2 ≡ₚ k1 ++ k2 → l2 ++ l1 ≡ₚ k2 ++ k1.
Proof.
  intros H. etrans; [apply Permutation_app_comm|].
  etrans; [exact H | apply Permutation_app_comm].
Qed.

Lemma applyOp_allTiles (g : Game) (o : Op) :
  wellFormed g → allTiles (applyOp g o) ≡ₚ allTiles g.
Proof.
  intros [Hlen Hdisj]. destruct o as [i|c| |]; cbn [applyOp].
  - destruct (selectSlot_cases i g) as (Hb & Hbag & Hh & Hs).
    unfold allTiles. by rewrite Hb, Hbag, Hh, Hs.
  - destruct (placeAt_cases c g) as [->|(i & t & _ & Hi & _ & Hst & ->)]; [done|].
    unfold allTiles. cbn [board tileBag playerHand stagedTiles].
    rewrite (handTiles_take _ _ _ Hi), (map_to_list_insert _ _ _ Hst).
    rewrite fmap_cons. cbn [snd].
    apply Permutation_app_head. symmetry. apply Permutation_middle.
  - rewrite commitTurn_eq by done.
    unfold allTiles. cbn [board tileBag playerHand stagedTiles tiles].
    rewrite map_to_list_empty, (map_to_list_disj_union _ _ Hdisj), fmap_app.
    simpl. rewrite !app_assoc. do 2 apply Permutation_app_tail.
    apply Permutation_swap_sides, refillSlots_conserves.
  - rewrite resetTurn_eq by done.
    unfold allTiles. cbn [board tileBag playerHand stagedTiles].
    rewrite map_to_list_empty. simpl. rewrite !app_assoc.
    apply Permutation_app_tail.
    etrans; [apply Permutation_app_comm|].
    etrans; [apply resetLoop_spec_conserves|]. cbn [fst snd].
    etrans; [apply Permutation_app_comm|].
    apply Permutation_app; [apply Permutation_app_comm|].
    by rewrite map_iter_Permutation.
Qed.

Lemma startGame_allTiles (shuffle : list Tile → list Tile) :
  allTiles (startGame shuffle) ≡ₚ initTileBag shuffle.
Proof.
  rewrite startGame_eq. unfold allTiles.
  cbn [board tileBag playerHand stagedTiles tiles].
  rewrite map_to_list_empty. cbn [fmap list_fmap app]. rewrite app_nil_r.
  etrans; [apply Permutation_app_comm|].
  etrans; [apply refillSlots_conserves|].
  by rewrite handTiles_replicate_None.
Qed.

(** X12. In every reachable state the hand has exactly six slots: the
    size checks that open [refillHand] and sit in the loop of
    [resetUnconfirmedTiles] never replace the hand during play. *)
Theorem hand_always_six (shuffle : list Tile → list Tile) (g : Game) :
  reachable shuffle g →
  length (playerHand g) = 6%nat ∧ ensureSixSlots (playerHand g) = playerHand g.
Proof.
  intros Hg. destruct (reachable_inPlay shuffle g Hg) as ([Hlen _] & _).
  split; [done | by apply ensureSixSlots_id].
Qed.

Lemma hand_always_six_witness :
  length (playerHand (runOps (startGame reverse) examplePlay)) = 6%nat
  ∧ ensureSixSlots (playerHand (runOps (startGame reverse) examplePlay))
    = playerHand (runOps (startGame reverse) examplePlay).
Proof.
  apply (hand_always_six reverse).
  apply reachable_runOps; [apply reachable_start|].
  repeat constructor; simpl; lia.
Defined.

(** X13. In every reachable state either no slot is selected
    ([selectedHandIndex] is -1) or the selected index is one of the six
    slots and that slot holds a tile. *)
Theorem selection_always_valid (shuffle : list Tile → list Tile) (g : Game) :
  reachable shuffle g →
  selectedHandIndex g = -1
  ∨ ∃ (i : nat) (t : Tile),
      (i < 6)%nat ∧ selectedHandIndex g = Z.of_nat i
      ∧ playerHand g !! i = Some (Some t).
Proof.
  intros Hg.
  destruct (reachable_inPlay shuffle g Hg) as ([Hlen _] & _ & [Hs|(i & t & Hs & Hi)]).
  - by left.
  - right. exists i, t. split_and!; try done.
    apply lookup_lt_Some in Hi. lia.
Qed.

Lemma selection_always_valid_witness :
  selectedHandIndex (runOps (startGame reverse) [SelectSlot 1; SelectSlot 4]) = -1
  ∨ ∃ (i : nat) (t : Tile),
      (i < 6)%nat
      ∧ selectedHandIndex (runOps (startGame reverse) [SelectSlot 1; SelectSlot 4])
        = Z.of_nat i
      ∧ playerHand (runOps (startGame reverse) [SelectSlot 1; SelectSlot 4]) !! i
        = Some (Some t).
Proof.
  apply (selection_always_valid reverse).
  apply reachable_runOps; [apply reachable_start|].
  repeat constructor; simpl; lia.
Defined.

(** X14. In every reachable state the staged tiles fit into the empty
    hand slots, so [resetUnconfirmedTiles] never takes its "no empty
    slot" branch: a reset leaves the bag untouched and puts exactly the
    tiles of the entries of [stagedTiles] back into the hand. *)
Theorem resetTurn_returns_to_hand (shuffle : list Tile → list Tile) (g : Game) :
  reachable shuffle g →
  (occupiedSlots (playerHand g) + size (stagedTiles g) ≤ 6)%nat
  ∧ tileBag (resetTurn g) = tileBag g
  ∧ handTiles (playerHand (resetTurn g))
    ≡ₚ (map_to_list (stagedTiles g)).*2 ++ handTiles (playerHand g).
Proof.
  intros Hg. destruct (reachable_inPlay shuffle g Hg) as (Hwf & Hroom & _).
  split; [done|]. destruct (resetTurn_in_play g Hwf Hroom) as [Hbag Hhand].
  split; [done|]. by rewrite Hhand, map_iter_Permutation.
Qed.

Lemma resetTurn_returns_to_hand_witness :
  (occupiedSlots (playerHand (runOps (startGame reverse) examplePlay))
   + size (stagedTiles (runOps (startGame reverse) examplePlay)) ≤ 6)%nat
  ∧ tileBag (resetTurn (runOps (startGame reverse) examplePlay))
    = tileBag (runOps (startGame reverse) examplePlay)
  ∧ handTiles (playerHand (resetTurn (runOps (startGame reverse) examplePlay)))
    ≡ₚ (map_to_list (stagedTiles (runOps (startGame reverse) examplePlay))).*2
       ++ handTiles (playerHand (runOps (startGame reverse) examplePlay)).
Proof.
  apply (resetTurn_returns_to_hand reverse).
  apply reachable_runOps; [apply reachable_start|].
  repeat constructor; simpl; lia.
Defined.

(** X15. The supply only shrinks during play: from a reachable state,
    after any operations, the bag is an initial segment of the bag
    before. Tiles leave it from the back and none is ever put back. *)
Theorem supply_only_shrinks (shuffle : list Tile → list Tile) (g : Game)
    (ops : list Op) :
  reachable shuffle g →
  Forall validOp ops →
  tileBag (runOps g ops) `prefix_of` tileBag g.
Proof.
  intros Hg _. by apply runOps_supply, (reachable_inPlay shuffle).
Qed.

Lemma supply_only_shrinks_witness :
  tileBag (runOps (startGame reverse) examplePlay)
  `prefix_of` tileBag (startGame reverse).
Proof.
  apply (supply_only_shrinks reverse (startGame reverse) examplePlay).
  - apply reachable_start.
  - repeat constructor; simpl; lia.
Defined.

(** X16. In every reachable state a commit adds exactly the staged
    tiles to the board: the board grows by the size of the staging area,
    no entry is overwritten. *)
Theorem commitTurn_board_size (shuffle : list Tile → list Tile) (g : Game) :
  reachable shuffle g →
  size (tiles (board (commitTurn g)))
  = (size (tiles (board g)) + size (stagedTiles g))%nat.
Proof.
  intros Hg. destruct (reachable_inPlay shuffle g Hg) as ([Hlen Hdisj] & _).
  rewrite commitTurn_eq by done. cbn [board tiles].
  rewrite (map_size_disj_union _ _ Hdisj). lia.
Qed.

Lemma commitTurn_board_size_witness :
  size (tiles (board (commitTurn (runOps (startGame reverse) examplePlay))))
  = (size (tiles (board (runOps (startGame reverse) examplePlay)))
     + size (stagedTiles (runOps (startGame reverse) examplePlay)))%nat.
Proof.
  apply (commitTurn_board_size reverse).
  apply reachable_runOps; [apply reachable_start|].
  repeat constructor; simpl; lia.
Defined.

(** X17. Every tile is accounted for by kind: in every reachable state
    the tiles of the supply, the hand, the staging area and the board
    together are a rearrangement of the 108 tiles the bag was filled
    with, so each (shape, colour) pair occurs exactly three times. *)
Theorem tiles_accounted_for (shuffle : list Tile → list Tile) (g : Game) :
  (∀ l, shuffle l ≡ₚ l) →
  reachable shuffle g →
  allTiles g ≡ₚ fillTileBag ∧ ∀ t, countTile t (allTiles g) = 3%nat.
Proof.
  intros Hperm Hg.
  assert (allTiles g ≡ₚ fillTileBag) as Hall.
  { induction Hg as [|g o Hg IH _].
    - rewrite startGame_allTiles. apply Hperm.
    - rewrite applyOp_allTiles; [done|]. by apply (reachable_wellFormed shuffle). }
  split; [done|]. intros t.
  rewrite (countTile_Permutation t _ _ Hall). apply fillTileBag_composition.
Qed.

Lemma tiles_accounted_for_witness :
  allTiles (runOps (startGame reverse) examplePlay) ≡ₚ fillTileBag
  ∧ ∀ t, countTile t (allTiles (runOps (startGame reverse) examplePlay)) = 3%nat.
Proof.
  apply (tiles_accounted_for reverse).
  - intros l. apply reverse_Permutation.
  - apply reachable_runOps; [apply reachable_start|].
    repeat constructor; simpl; lia.
Defined.

(** ** Texture files *)

Lemma string_app_nonempty (a : string) (ch : ascii) :
  a +:+ String ch "" ≠ ""%string.
Proof. by destruct a. Qed.

Lemma back_snoc (a : string) (ch : ascii) : back (a +:+ String ch "") = Some ch.
Proof.
  induction a as [|ch' a IH]; [done|].
  change (String ch' a +:+ String ch "") with (String ch' (a +:+ String ch "")).
  pose proof (string_app_nonempty a ch) as Hne.
  cbn [back]. by destruct (a +:+ String ch "").
Qed.

(** X18. [joinPath]: an empty directory gives the file name alone;
    otherwise the result is the directory, one ['/'] added unless the
    directory already ends in one, followed by the file name. For a
    fixed directory different file names give different paths. *)
Theorem joinPath_spec (a b : string) :
  (a = ""%string → joinPath a b = b)
  ∧ (a ≠ ""%string →
     ∃ p, joinPath a b = p +:+ b
          ∧ back p = Some "/"%char
          ∧ (back a = Some "/"%char → p = a)
          ∧ (back a ≠ Some "/"%char → p = a +:+ "/"))
  ∧ (∀ b', joinPath a b = joinPath a b' → b = b').
Proof.
  unfold joinPath. split_and!.
  - intros ->. done.
  - intros Hne. rewrite decide_False by done.
    destruct (decide (back a = Some "/"%char)) as [Hb|Hb].
    + exists a. by split_and!.
    + exists (a +:+ "/")%string. split_and!; try done. apply back_snoc.
  - intros b'. repeat case_decide; try done; intros Heq;
      by apply String.app_inj in Heq.
Qed.

Lemma joinPath_inj (a b b' : string) : joinPath a b = joinPath a b' → b = b'.
Proof.
  unfold joinPath. repeat case_decide; try done; intros Heq;
    by apply String.app_inj in Heq.
Qed.

(** The letters the two name maps hold. *)
Definition shapeLetter (s : Shape) : string :=
  match s with
  | Circle => "O" | Square => "S" | Diamond => "D"
  | Astericks => "A" | Clover => "C" | Fourpoint => "F"
  end.

Definition colorLetter (c : Color) : string :=
  match c with
  | Red => "r" | Orange => "o" | Yellow => "y"
  | Green => "g" | Blue => "b" | Purple => "p"
  end.

Lemma shapeNames_lookup (s : Shape) : shapeNames !! s = Some (shapeLetter s).
Proof. destruct s; vm_compute; reflexivity. Qed.

Lemma colorNames_lookup (c : Color) : colorNames !! c = Some (colorLetter c).
Proof. destruct c; vm_compute; reflexivity. Qed.

Lemma getTextureFilename_eq (s : Shape) (c : Color) (dir : string) :
  getTextureFilename s c dir
  = Some (joinPath dir (colorLetter c +:+ shapeLetter s +:+ ".png")).
Proof.
  unfold getTextureFilename. by rewrite colorNames_lookup, shapeNames_lookup.
Qed.

Lemma textureName_inj (s s' : Shape) (c c' : Color) :
  (colorLetter c +:+ shapeLetter s +:+ ".png"
   = colorLetter c' +:+ shapeLetter s' +:+ ".png")%string →
  s = s' ∧ c = c'.
Proof.
  destruct s, c, s', c'; intros H; vm_compute in H; (done || discriminate H).
Qed.

(** X19. [getTextureFilename] never throws: both [at] lookups succeed
    for every shape and colour. The file is the colour letter, the shape
    letter and [".png"], joined to the directory; within one directory
    two tiles share a file only if they are the same tile. *)
Theorem getTextureFilename_spec (s : Shape) (c : Color) (dir : string) :
  getTextureFilename s c dir
  = Some (joinPath dir (colorLetter c +:+ shapeLetter s +:+ ".png"))
  ∧ String.length (colorLetter c +:+ shapeLetter s +:+ ".png") = 6%nat
  ∧ ∀ s' c', getTextureFilename s c dir = getTextureFilename s' c' dir →
             s = s' ∧ c = c'.
Proof.
  split_and!.
  - apply getTextureFilename_eq.
  - by destruct s, c.
  - intros s' c'. rewrite !getTextureFilename_eq. intros [= H].
    by apply textureName_inj, (joinPath_inj dir).
Qed.

Section TextureLoadingFacts.

Context {Texture : Type}.
Variable loadFromFile : string → option Texture.
Variable setSmooth : Texture → Texture.

(** The texture that [loadFromFile] delivers for the file of tile
    [(s, c)] in [dir], if any. *)
Definition tryLoad (dir : string) (s : Shape) (c : Color) : option Texture :=
  getTextureFilename s c dir ≫= loadFromFile.

(** One iteration of the inner loop, as a total function of the key. *)
Definition loadKey (dir : string) (st : gmap (Shape * Color) Texture * Z)
    (k : Shape * Color) : gmap (Shape * Color) Texture * Z :=
  match tryLoad dir k.1 k.2 with
  | None => st
  | Some tex => (<[k := setSmooth tex]> st.1, st.2 + 1)
  end.

(** The keys the two nested loops visit, in order. *)
Definition tileKeys : list (Shape * Color) :=
  s ← shapeKeys; (λ c, (s, c)) <$> colorKeys.

Lemma loadOne_eq dir st s c :
  loadOne Texture loadFromFile setSmooth dir st s c = Some (loadKey dir st (s, c)).
Proof.
  unfold loadOne, loadKey, tryLoad. cbn [fst snd].
  rewrite getTextureFilename_eq. cbn [mbind option_bind].
  by destruct (loadFromFile _).
Qed.

Lemma loadLoop_inner dir s (cs : list Color) st :
  foldl (λ acc c, st ← acc; loadOne Texture loadFromFile setSmooth dir st s c)
        (Some st) cs
  = Some (foldl (loadKey dir) st ((λ c, (s, c)) <$> cs)).
Proof.
  revert st. induction cs as [|c cs IH]; intros st; [done|].
  cbn [foldl fmap list_fmap]. cbn [mbind option_bind].
  rewrite loadOne_eq. apply IH.
Qed.

Lemma loadLoop_outer dir (ss : list Shape) st :
  foldl (λ acc s,
    foldl (λ acc c, st ← acc; loadOne Texture loadFromFile setSmooth dir st s c)
          acc colorKeys)
    (Some st) ss
  = Some (foldl (loadKey dir) st (s ← ss; (λ c, (s, c)) <$> colorKeys)).
Proof.
  revert st. induction ss as [|s ss IH]; intros st; [done|].
  cbn [foldl]. rewrite loadLoop_inner, IH.
  cbn [mbind list_bind]. by rewrite foldl_app.
Qed.

Lemma loadLoop_eq dir st :
  loadLoop Texture loadFromFile setSmooth dir st
  = Some (foldl (loadKey dir) st tileKeys).
Proof. apply loadLoop_outer. Qed.

Lemma foldl_loadKey_lookup dir (l : list (Shape * Color)) st k :
  (foldl (loadKey dir) st l).1 !! k
  = if decide (k ∈ l)
    then match tryLoad dir k.1 k.2 with
         | Some tex => Some (setSmooth tex)
         | None => st.1 !! k
         end
    else st.1 !! k.
Proof.
  revert st. induction l as [|k0 l IH]; intros st.
  - by rewrite decide_False by (by intros ?%elem_of_nil).
  - cbn [foldl]. rewrite IH.
    assert (Hk0 : (loadKey dir st k0).1 !! k
                  = if decide (k = k0)
                    then match tryLoad dir k.1 k.2 with
                         | Some tex => Some (setSmooth tex)
                         | None => st.1 !! k
                         end
                    else st.1 !! k).
    { unfold loadKey. destruct (decide (k = k0)) as [Hk|Hk].
      - subst k0. destruct (tryLoad dir k.1 k.2); simpl; [|done].
        by rewrite lookup_insert_eq.
      - destruct (tryLoad dir k0.1 k0.2); simpl; [|done].
        by rewrite lookup_insert_ne. }
    rewrite Hk0. clear Hk0 IH.
    destruct (decide (k ∈ l)) as [Hl|Hl], (decide (k = k0)) as [Hk|Hk].
    + rewrite decide_True by (subst; by left).
      by destruct (tryLoad dir k.1 k.2).
    + by rewrite decide_True by (by right).
    + by rewrite decide_True by (subst; by left).
    + rewrite decide_False; [done|]. by intros [?|?]%elem_of_cons.
Qed.

Lemma foldl_loadKey_count dir (l : list (Shape * Color)) st :
  st.2 ≤ (foldl (loadKey dir) st l).2
  ∧ ((foldl (loadKey dir) st l).2 = st.2
     ↔ ∀ k, k ∈ l → tryLoad dir k.1 k.2 = None).
Proof.
  revert st. induction l as [|k0 l IH]; intros st.
  - split; [done|]. split; [|done]. by intros _ k ?%elem_of_nil.
  - cbn [foldl]. destruct (IH (loadKey dir st k0)) as [Hle Hiff].
    unfold loadKey in *. destruct (tryLoad dir k0.1 k0.2) as [tex|] eqn:Hk0.
    + simpl in *. split; [lia|]. split; [lia|].
      intros Hall. specialize (Hall k0 ltac:(by left)). congruence.
    + split; [done|]. rewrite Hiff. split.
      * intros Hall k [->|?]%elem_of_cons; [done | by apply Hall].
      * intros Hall k Hk. apply Hall. by right.
Qed.

Lemma tileKeys_all (s : Shape) (c : Color) : (s, c) ∈ tileKeys.
Proof.
  destruct s, c;
    match goal with
    | |- ?k ∈ ?l => apply (bool_decide_unpack (k ∈ l)); vm_compute; exact I
    end.
Qed.

Lemma loadTextures_eq (dir : string) (m : gmap (Shape * Color) Texture) :
  ∃ ok m',
    loadTextures Texture loadFromFile setSmooth dir m = Some (ok, m')
    ∧ (ok = false ↔ ∀ s c, tryLoad dir s c = None)
    ∧ ∀ s c, m' !! (s, c)
             = match tryLoad dir s c with
               | Some tex => Some (setSmooth tex)
               | None => m !! (s, c)
               end.
Proof.
  unfold loadTextures. rewrite loadLoop_eq. cbn [mbind option_bind].
  destruct (foldl_loadKey_count dir tileKeys (m, 0)) as [_ Hiff]. cbn [snd] in Hiff.
  assert (Hlook : ∀ s c,
            (foldl (loadKey dir) (m, 0) tileKeys).1 !! (s, c)
            = match tryLoad dir s c with
              | Some tex => Some (setSmooth tex)
              | None => m !! (s, c)
              end).
  { intros s c. rewrite foldl_loadKey_lookup.
    by rewrite decide_True by apply tileKeys_all. }
  case_decide as Hz.
  - eexists false, _. split_and!; [done| |done]. split; [|done].
    intros _ s c. destruct Hiff as [Hiff _].
    apply (Hiff Hz (s, c)), tileKeys_all.
  - eexists true, _. split_and!; [done| |done]. split; [done|].
    intros Hall. destruct Hz. apply Hiff. intros [s c] _. apply Hall.
Qed.

(** X20. [loadTextures] never throws. It returns false exactly when
    none of the 36 files loads; afterwards every tile whose file loads
    is mapped to that (smoothed) texture and every other tile keeps the
    entry it had. *)
Theorem loadTextures_spec (dir : string) (m : gmap (Shape * Color) Texture) :
  ∃ ok m',
    loadTextures Texture loadFromFile setSmooth dir m = Some (ok, m')
    ∧ (ok = false ↔ ∀ s c, tryLoad dir s c = None)
    ∧ ∀ s c, m' !! (s, c)
             = match tryLoad dir s c with
               | Some tex => Some (setSmooth tex)
               | None => m !! (s, c)
               end.
Proof. apply loadTextures_eq. Qed.

(** X21. The texture loading of [Game::run] never mixes directories:
    if any file of ["assets/tiles"] loads, the textures are exactly the
    ones that load from there and the fallback directory is not read;
    otherwise they are exactly the ones that load from
    ["../assets/tiles"]. *)
Theorem runLoadTextures_spec :
  ∃ m,
    runLoadTextures Texture loadFromFile setSmooth = Some m
    ∧ ((∃ s c, is_Some (tryLoad "assets/tiles" s c)) →
       ∀ s c, m !! (s, c) = setSmooth <$> tryLoad "assets/tiles" s c)
    ∧ ((∀ s c, tryLoad "assets/tiles" s c = None) →
       ∀ s c, m !! (s, c) = setSmooth <$> tryLoad "../assets/tiles" s c).
Proof.
  unfold runLoadTextures.
  destruct (loadTextures_eq "assets/tiles" ∅) as (ok & m1 & -> & Hok & Hm1).
  destruct ok.
  - exists m1. split_and!; [done| |].
    + intros _ s c. rewrite Hm1, lookup_empty.
      by destruct (tryLoad "assets/tiles" s c).
    + intros Hnone. apply Hok in Hnone. done.
  - destruct (loadTextures_eq "../assets/tiles" m1) as (ok2 & m2 & -> & _ & Hm2).
    assert (Hnone : ∀ s c, tryLoad "assets/tiles" s c = None) by by apply Hok.
    assert (Hm1' : ∀ s c, m1 !! (s, c) = None).
    { intros s c. by rewrite Hm1, Hnone, lookup_empty. }
    exists m2. split_and!; [done| |].
    + intros (s & c & Hsome). rewrite Hnone in Hsome. by destruct Hsome.
    + intros _ s c. rewrite Hm2, Hm1'.
      by destruct (tryLoad "../assets/tiles" s c).
Qed.

End TextureLoadingFacts.

(** A file system with a single tile file, in the fallback directory. *)
Example runLoadTextures_fallback :
  runLoadTextures string
    (λ f, if decide (f = "../assets/tiles/bS.png"%string) then Some f else None)
    (λ tex, tex)
  = Some {[ (Square, Blue) := "../assets/tiles/bS.png"%string ]}.
Proof. by vm_compute. Qed.
